(** * Verification of the user repository (src/repository/users.py)

    The module is a set of coroutines over an SQLAlchemy [AsyncSession].
    They are embedded here as computations in a state-and-exception monad
    over a [World]: the database table, the session (its transaction view,
    identity map and pending list) and the Python objects the session hands
    out, which callers and the session share by address. *)

From stdpp Require Import base option list gmap strings.
From Stdlib Require Import Lia.

Open Scope string_scope.
Open Scope list_scope.
Open Scope nat_scope.

(** ** The entity and the creation payload *)

(** Modelled from the spec: src/entity/models.py (the [User] table) is not
    among the sources.  The columns are the ones the data model of the
    specification lists, together with the generated identifier that
    [refresh] reloads after an insert. *)
Record User := mkUser {
  user_id : option nat;
  email : string;
  password : string;
  avatar : option string;
  confirmed : bool;
  refresh_token : option string;
  password_reset_token : option string
}.

(** Modelled from the spec: src/schemas/user.py (the [UserModel] payload) is
    not among the sources.  A validated payload carries the identifying
    email and the credential. *)
Record UserModel := mkUserModel {
  um_email : string;
  um_password : string
}.

Definition set_user_id (v : option nat) (u : User) : User :=
  mkUser v (email u) (password u) (avatar u) (confirmed u)
         (refresh_token u) (password_reset_token u).

Definition set_password (v : string) (u : User) : User :=
  mkUser (user_id u) (email u) v (avatar u) (confirmed u)
         (refresh_token u) (password_reset_token u).

Definition set_avatar (v : option string) (u : User) : User :=
  mkUser (user_id u) (email u) (password u) v (confirmed u)
         (refresh_token u) (password_reset_token u).

Definition set_confirmed (v : bool) (u : User) : User :=
  mkUser (user_id u) (email u) (password u) (avatar u) v
         (refresh_token u) (password_reset_token u).

Definition set_refresh_token (v : option string) (u : User) : User :=
  mkUser (user_id u) (email u) (password u) (avatar u) (confirmed u)
         v (password_reset_token u).

Definition set_password_reset_token (v : option string) (u : User) : User :=
  mkUser (user_id u) (email u) (password u) (avatar u) (confirmed u)
         (refresh_token u) v.

(** ** Exceptions and observable effects *)

Inductive Exception :=
| AttributeError (attr : string)   (* 'NoneType' object has no attribute ... *)
| MultipleResultsFound             (* scalar_one_or_none on several rows *)
| IntegrityError                   (* unique constraint on the email column *)
| InvalidRequestError              (* refresh of an instance the session does not hold *)
| LookupFailure (msg : string).    (* whatever the avatar service raised *)

Inductive Effect :=
| DbExecute
| DbAdd
| DbCommit
| DbRefresh
| Printed (err : Exception).

(** ** The world the coroutines run in *)

(** Python objects are denoted by their address in [heap]. *)
Abbreviation loc := nat (only parsing).

Record World := mkWorld {
  autoflush : bool;               (* session option, set where sessions are made *)
  committed : list User;          (* the durable table *)
  tx : list User;                 (* the table as the open transaction sees it *)
  next_id : nat;                  (* autoincrement counter of the key column *)
  heap : list User;               (* Python objects *)
  identity_map : gmap nat nat;    (* key -> address of the persistent object *)
  new : list nat;                 (* addresses added but not yet inserted *)
  trace : list Effect             (* session calls and prints, oldest first *)
}.

Definition set_committed (v : list User) (w : World) : World :=
  mkWorld (autoflush w) v (tx w) (next_id w) (heap w) (identity_map w) (new w) (trace w).

Definition set_tx (v : list User) (w : World) : World :=
  mkWorld (autoflush w) (committed w) v (next_id w) (heap w) (identity_map w) (new w) (trace w).

Definition set_next_id (v : nat) (w : World) : World :=
  mkWorld (autoflush w) (committed w) (tx w) v (heap w) (identity_map w) (new w) (trace w).

Definition set_heap (v : list User) (w : World) : World :=
  mkWorld (autoflush w) (committed w) (tx w) (next_id w) v (identity_map w) (new w) (trace w).

Definition set_identity_map (v : gmap nat nat) (w : World) : World :=
  mkWorld (autoflush w) (committed w) (tx w) (next_id w) (heap w) v (new w) (trace w).

Definition set_new (v : list nat) (w : World) : World :=
  mkWorld (autoflush w) (committed w) (tx w) (next_id w) (heap w) (identity_map w) v (trace w).

Definition set_trace (v : list Effect) (w : World) : World :=
  mkWorld (autoflush w) (committed w) (tx w) (next_id w) (heap w) (identity_map w) (new w) v.

(** A session opened by another request on the same database: it sees the
    durable table only and holds no object yet. *)
Definition new_session (w : World) : World :=
  mkWorld (autoflush w) (committed w) (committed w) (next_id w) (heap w) ∅ [] (trace w).

(** ** The monad: state passing with exceptions *)

Definition M (A : Type) : Type := World → (Exception + A) * World.

#[global] Instance M_ret : MRet M := λ A a w, (inr a, w).

#[global] Instance M_bind : MBind M := λ A B k c w,
  match c w with
  | (inl e, w') => (inl e, w')
  | (inr a, w') => k a w'
  end.

Definition raise {A} (e : Exception) : M A := λ w, (inl e, w).

(** [try: c except Exception as err: h err] *)
Definition try_except {A} (c : M A) (h : Exception → M A) : M A := λ w,
  match c w with
  | (inl e, w') => h e w'
  | (inr a, w') => (inr a, w')
  end.

Definition log (e : Effect) : M unit := λ w,
  (inr (), set_trace (trace w ++ [e]) w).

(** [print(err)] *)
Definition print (err : Exception) : M unit := log (Printed err).

(** ** Python objects *)

(** [target.attr = v]: on [None] the assignment raises [AttributeError]. *)
Definition setattr (target : option loc) (attr : string) (f : User → User) : M unit :=
  λ w,
  match target with
  | None => (inl (AttributeError attr), w)
  | Some l => (inr (), set_heap (alter f l (heap w)) w)
  end.

(** The constructor call of [create_user], with the payload's fields and
    the avatar as keywords: a transient object; the columns the payload does
    not give take their defaults. *)
Definition User_init (body : UserModel) (avatar : option string) : M loc := λ w,
  (inr (length (heap w)),
   set_heap (heap w ++ [mkUser None (um_email body) (um_password body) avatar
                               false None None]) w).

(** ** The session *)

(** UPDATE of a row from the persistent object that stands for it. *)
Definition sync_row (w : World) (r : User) : User :=
  match user_id r with
  | Some pk =>
      match identity_map w !! pk with
      | Some l =>
          match heap w !! l with
          | Some o => set_user_id (Some pk) o
          | None => r
          end
      | None => r
      end
  | None => r
  end.

(** INSERT of the pending objects, in the order they were added: each takes
    the next key, which is written back to the object, and becomes
    persistent. *)
Fixpoint insert_pending (pending : list loc) (w : World) : World :=
  match pending with
  | [] => w
  | l :: rest =>
      match heap w !! l with
      | Some o =>
          let pk := next_id w in
          let row := set_user_id (Some pk) o in
          insert_pending rest
            (set_next_id (S pk)
               (set_identity_map (<[pk := l]> (identity_map w))
                  (set_heap (<[l := row]> (heap w))
                     (set_tx (tx w ++ [row]) w))))
      | None => insert_pending rest w
      end
  end.

(** A failed flush rolls the transaction back: its view is the durable
    table again and the session lets go of its objects.  The state is the
    one the session has once the caller has issued its rollback; that the
    session refuses every call until then is left out.  No function of this
    module calls the session again after a commit that raised. *)
Definition rollback (w : World) : World :=
  set_new [] (set_identity_map ∅ (set_tx (committed w) w)).

(** Modelled from the spec: the constraint on the email column is declared
    in src/entity/models.py, which is not among the sources.  The storage
    layer keeps [email] unique: a flush that would leave two rows with one
    email raises [IntegrityError]. *)
Definition flush : M unit := λ w,
  let w1 := set_tx (sync_row w <$> tx w) w in
  let w2 := insert_pending (new w1) (set_new [] w1) in
  if decide (NoDup (email <$> tx w2))
  then (inr (), w2)
  else (inl IntegrityError, rollback w).

(** The session flushes before a query when [autoflush] is set. *)
Definition autoflush_step : M unit := λ w,
  if autoflush w then flush w else (inr (), w).

Definition rows_by_email (e : string) : M (list User) := λ w,
  (inr (filter (λ r, email r = e) (tx w)), w).

(** [select(User).filter_by(email=email)] run by [db.execute]. *)
Definition db_execute_select_by_email (e : string) : M (list User) :=
  log DbExecute;;
  autoflush_step;;
  rows_by_email e.

(** The object that stands for a row: the one the identity map already
    holds for its key, else a new object loaded from the row.  (A row
    without a key cannot be stored; the last case only makes the function
    total.) *)
Definition instance_of (r : User) : M loc := λ w,
  match user_id r with
  | Some pk =>
      match identity_map w !! pk with
      | Some l => (inr l, w)
      | None =>
          (inr (length (heap w)),
           set_identity_map (<[pk := length (heap w)]> (identity_map w))
             (set_heap (heap w ++ [r]) w))
      end
  | None => (inr (length (heap w)), set_heap (heap w ++ [r]) w)
  end.

(** [Result.scalar_one_or_none()] *)
Definition scalar_one_or_none (rows : list User) : M (option loc) :=
  match rows with
  | [] => mret None
  | [r] => l ← instance_of r; mret (Some l)
  | _ => raise MultipleResultsFound
  end.

(** An object is persistent when it carries a key under which the identity
    map holds it: the objects the session returned from a query or
    inserted. *)
Definition persistent (w : World) (l : loc) : Prop :=
  ∃ o pk, heap w !! l = Some o ∧ user_id o = Some pk ∧ identity_map w !! pk = Some l.

Definition persistent_key (w : World) (l : loc) : option nat :=
  pk ← heap w !! l ≫= user_id;
  if decide (identity_map w !! pk = Some l) then Some pk else None.

(** [db.add(obj)]: no effect on an object that is already pending or
    persistent. *)
Definition add_pending (l : loc) : M unit := λ w,
  if decide (l ∈ new w) then (inr (), w)
  else match persistent_key w l with
       | Some _ => (inr (), w)
       | None => (inr (), set_new (new w ++ [l]) w)
       end.

Definition db_add (l : loc) : M unit :=
  log DbAdd;;
  add_pending l.

Definition make_durable : M unit := λ w,
  (inr (), set_committed (tx w) w).

(** [db.commit()]: flush, then make the transaction's view durable.  That
    a commit also expires the session's objects is left out: the flush has
    just made every row equal to its object, so a reload reads the values
    the object already has. *)
Definition db_commit : M unit :=
  log DbCommit;;
  flush;;
  make_durable.

(** Reload of a persistent object from its row. *)
Definition reload (l : loc) : M unit := λ w,
  match persistent_key w l with
  | Some pk =>
      match list_find (λ r, user_id r = Some pk) (tx w) with
      | Some (_, r) => (inr (), set_heap (<[l := r]> (heap w)) w)
      | None => (inl InvalidRequestError, w)
      end
  | None => (inl InvalidRequestError, w)
  end.

(** [db.refresh(obj)]; handed [None] it raises (an unmapped instance is an
    invalid request). *)
Definition db_refresh (target : option loc) : M unit :=
  log DbRefresh;;
  match target with
  | Some l => reload l
  | None => raise InvalidRequestError
  end.

(** ** The repository functions (src/repository/users.py) *)

Definition get_user_by_email (email : string) : M (option loc) :=
  user ← db_execute_select_by_email email;
  user ← scalar_one_or_none user;
  mret user.

(** The avatar service, [Gravatar(email).get_image()]: an image URL, or
    whatever exception the lookup raised. *)
Definition Gravatar : Type := string → Exception + string.

Definition create_user (g : Gravatar) (body : UserModel) : M loc :=
  avatar ← try_except
             (match g (um_email body) with
              | inr url => mret (Some url)
              | inl err => raise err
              end)
             (λ err, print err;; mret None);
  new_user ← User_init body avatar;
  db_add new_user;;
  db_commit;;
  db_refresh (Some new_user);;
  mret new_user.

Definition update_token (user : loc) (token : option string) : M unit :=
  setattr (Some user) "refresh_token" (set_refresh_token token);;
  db_commit.

Definition confirmed_email (email : string) : M unit :=
  user ← get_user_by_email email;
  setattr user "confirmed" (set_confirmed true);;
  db_commit.

Definition update_avatar_url (email : string) (url : option string) : M (option loc) :=
  user ← get_user_by_email email;
  setattr user "avatar" (set_avatar url);;
  db_commit;;
  db_refresh user;;
  mret user.

Definition set_new_password (email : string) (new_password : string) : M (option loc) :=
  user ← get_user_by_email email;
  setattr user "password" (set_password new_password);;
  db_commit;;
  mret user.

Definition update_reset_token (user : loc) (reset_token : option string) : M loc :=
  setattr (Some user) "password_reset_token" (set_password_reset_token reset_token);;
  db_commit;;
  mret user.

(** * Specification vocabulary *)

(** Nothing is pending, the transaction's view is the durable table, every
    row has a key below the counter, keys and emails are unique, and every
    object of the identity map is a copy of its row. *)
Record clean (w : World) : Prop := mkClean {
  clean_tx : tx w = committed w;
  clean_new : new w = [];
  clean_keys : ∀ r, r ∈ tx w → ∃ pk, user_id r = Some pk ∧ pk < next_id w;
  clean_pk : NoDup (user_id <$> tx w);
  clean_email : NoDup (email <$> tx w);
  clean_objs : ∀ pk l, identity_map w !! pk = Some l →
      ∃ o, heap w !! l = Some o ∧ user_id o = Some pk ∧ o ∈ tx w
}.

(** What the UPDATE of the flush does to the table when the object of key
    [pk] was changed by [f]. *)
Definition upd (pk : nat) (f : User → User) (r : User) : User :=
  if decide (user_id r = Some pk) then f r else r.

Definition updated (pk : nat) (l : loc) (f : User → User) (w : World) : World :=
  mkWorld (autoflush w) (upd pk f <$> tx w) (upd pk f <$> tx w) (next_id w)
          (alter f l (heap w)) (identity_map w) [] (trace w ++ [DbCommit]).

(** The setters of this module touch neither the key nor the email. *)
Definition keeps_identity (f : User → User) : Prop :=
  (∀ u, user_id (f u) = user_id u) ∧ (∀ u, email (f u) = email u).

(** The attribute values of the user that [get_user_by_email] returns. *)
Definition fresh_lookup (e : string) (w : World) : option User :=
  match get_user_by_email e w with
  | (inr (Some l), w') => heap w' !! l
  | _ => None
  end.

(** The row that [create_user] inserts and the world it leaves, when the
    avatar step produced [a]. *)
Definition created_user (body : UserModel) (a : option string) (w : World) : User :=
  mkUser (Some (next_id w)) (um_email body) (um_password body) a false None None.

Definition created (body : UserModel) (a : option string) (w : World) : World :=
  mkWorld (autoflush w)
          (committed w ++ [created_user body a w])
          (tx w ++ [created_user body a w])
          (S (next_id w))
          (heap w ++ [created_user body a w])
          (<[next_id w := length (heap w)]> (identity_map w))
          []
          (trace w ++ [DbAdd; DbCommit]).

#[global] Instance Exception_eq_dec : EqDecision Exception.
Proof. solve_decision. Defined.

#[global] Instance Effect_eq_dec : EqDecision Effect.
Proof. solve_decision. Defined.

(** What an invocation appended to the trace, and the commits in it. *)
Definition issued {A} (c : M A) (w : World) : list Effect :=
  drop (length (trace w)) (trace (c w).2).

Definition commits (t : list Effect) : nat :=
  length (filter (λ e, e = DbCommit) t).

(** [c] appends exactly [t], whether it returns or raises. *)
Definition emits {A} (c : M A) (t : list Effect) : Prop :=
  ∀ w, trace (c w).2 = trace w ++ t.

(** What the avatar step of [create_user] prints. *)
Definition avatar_log (g : Gravatar) (body : UserModel) : list Effect :=
  match g (um_email body) with
  | inl err => [Printed err]
  | inr _ => []
  end.

(** An invocation that returns issued exactly one commit; one that raises
    issued at most one. *)
Definition single_commit_on_return {A} (c : M A) (w : World) : Prop :=
  (∀ a, (c w).1 = inr a → commits (issued c w) = 1) ∧ commits (issued c w) ≤ 1.

Definition single_commit {A} (c : M A) (w : World) : Prop :=
  commits (issued c w) = 1.

Definition alice : User :=
  mkUser (Some 1) "alice@example.com" "pbkdf2$alice" None false None None.

(** A session just opened on an empty table. *)
Definition empty_world : World := mkWorld false [] [] 1 [] ∅ [] [].

(** A session that has loaded the only stored user, at address 0. *)
Definition alice_world : World :=
  mkWorld false [alice] [alice] 2 [alice] {[1 := 0]} [] [].

Definition gravatar_up : Gravatar :=
  λ e, inr ("https://www.gravatar.com/avatar/" +:+ e).

Definition gravatar_down : Gravatar :=
  λ _, inl (LookupFailure "connection refused").

Definition bob_payload : UserModel := mkUserModel "bob@example.com" "pbkdf2$bob".

Definition differ_only_in_refresh_token (u u' : User) : Prop :=
  user_id u' = user_id u ∧ email u' = email u ∧ password u' = password u ∧
  avatar u' = avatar u ∧ confirmed u' = confirmed u ∧
  password_reset_token u' = password_reset_token u.

Definition differ_only_in_confirmed (u u' : User) : Prop :=
  user_id u' = user_id u ∧ email u' = email u ∧ password u' = password u ∧
  avatar u' = avatar u ∧ refresh_token u' = refresh_token u ∧
  password_reset_token u' = password_reset_token u.

Definition differ_only_in_password (u u' : User) : Prop :=
  user_id u' = user_id u ∧ email u' = email u ∧ avatar u' = avatar u ∧
  confirmed u' = confirmed u ∧ refresh_token u' = refresh_token u ∧
  password_reset_token u' = password_reset_token u.

Definition differ_only_in_password_reset_token (u u' : User) : Prop :=
  user_id u' = user_id u ∧ email u' = email u ∧ password u' = password u ∧
  avatar u' = avatar u ∧ confirmed u' = confirmed u ∧
  refresh_token u' = refresh_token u.

(** The rows of the other users are the same in the durable table. *)
Definition others_kept (r : User) (w w' : World) : Prop :=
  ∀ v, v ∈ committed w → v ≠ r → v ∈ committed w'.

(** The durable table of [w'] has the rows of [w] under the same keys and
    emails, in the same order. *)
Definition same_keys_and_emails (w w' : World) : Prop :=
  user_id <$> committed w' = user_id <$> committed w ∧
  email <$> committed w' = email <$> committed w.

(** A session that holds alice and, beside her, an object it never
    loaded or added (address 1). *)
Definition mallory : User :=
  mkUser (Some 1) "alice@example.com" "pbkdf2$mallory" None true None None.

Definition detached_world : World :=
  mkWorld false [alice] [alice] 2 [alice; mallory] {[1 := 0]} [] [].

(** A table without the constraint on emails, holding one email twice. *)
Definition alice_twin : User :=
  mkUser (Some 2) "alice@example.com" "pbkdf2$twin" None false None None.

Definition twin_world : World :=
  mkWorld false [alice; alice_twin] [alice; alice_twin] 3 [] ∅ [] [].

(** * Properties *)

(** ** Running the monad *)

Lemma bind_inr {A B} (c : M A) (k : A → M B) w a w' :
  c w = (inr a, w') → (c ≫= k) w = k a w'.
Proof. intros H. unfold mbind, M_bind. by rewrite H. Qed.

(** ** Lists of rows *)

Lemma NoDup_fmap_eq {A B} (f : A → B) (l : list A) x y :
  NoDup (f <$> l) → x ∈ l → y ∈ l → f x = f y → x = y.
Proof.
  induction l as [|a l IH]; intros Hnd Hx Hy Hf.
  - by apply elem_of_nil in Hx.
  - rewrite fmap_cons in Hnd. apply NoDup_cons in Hnd as [Hna Hnd].
    apply elem_of_cons in Hx as [->|Hx]; apply elem_of_cons in Hy as [->|Hy].
    + done.
    + exfalso. apply Hna. rewrite Hf. by apply list_elem_of_fmap_2.
    + exfalso. apply Hna. rewrite <- Hf. by apply list_elem_of_fmap_2.
    + by apply IH.
Qed.

Lemma filter_email_none (e : string) (l : list User) :
  (∀ r, r ∈ l → email r ≠ e) → filter (λ r, email r = e) l = [].
Proof.
  induction l as [|a l IH]; intros H; [done|].
  rewrite filter_cons_False.
  - apply IH. intros r Hr. apply H. by right.
  - apply H. by left.
Qed.

Lemma filter_email_unique (l : list User) (r : User) :
  NoDup (email <$> l) → r ∈ l → filter (λ x, email x = email r) l = [r].
Proof.
  induction l as [|a l IH]; intros Hnd Hr.
  - by apply elem_of_nil in Hr.
  - rewrite fmap_cons in Hnd. apply NoDup_cons in Hnd as [Hna Hnd].
    apply elem_of_cons in Hr as [->|Hr].
    + rewrite filter_cons_True by done. f_equal.
      apply filter_email_none. intros x Hx Heq. apply Hna.
      rewrite <- Heq. by apply list_elem_of_fmap_2.
    + rewrite filter_cons_False; [by apply IH|].
      intros Heq. apply Hna. rewrite Heq. by apply list_elem_of_fmap_2.
Qed.

(** ** The invariant of a session between two operations *)

Lemma set_user_id_same (u : User) pk :
  user_id u = Some pk → set_user_id (Some pk) u = u.
Proof. destruct u; cbn; by intros ->. Qed.

Lemma clean_obj_row w pk l r :
  clean w → identity_map w !! pk = Some l → r ∈ tx w → user_id r = Some pk →
  heap w !! l = Some r.
Proof.
  intros Hc Hl Hr Hpk.
  destruct (clean_objs w Hc pk l Hl) as (o & Ho & Hok & Hin).
  rewrite Ho. f_equal.
  apply (NoDup_fmap_eq user_id (tx w)); [by apply clean_pk|done|done|congruence].
Qed.

Lemma sync_row_clean w r : clean w → r ∈ tx w → sync_row w r = r.
Proof.
  intros Hc Hr. unfold sync_row.
  destruct (user_id r) as [pk|] eqn:Hpk; [|done].
  destruct (identity_map w !! pk) as [l|] eqn:Hl; [|done].
  rewrite (clean_obj_row w pk l r) by done.
  by apply set_user_id_same.
Qed.

Lemma flush_no_pending w :
  new w = [] → NoDup (email <$> (sync_row w <$> tx w)) →
  flush w = (inr (), set_tx (sync_row w <$> tx w) w).
Proof.
  intros Hn Hnd. unfold flush. destruct w; cbn in *; subst; cbn.
  by rewrite decide_True.
Qed.

Lemma fmap_id_on {A} (f : A → A) (l : list A) :
  (∀ x, x ∈ l → f x = x) → f <$> l = l.
Proof.
  induction l as [|a l IH]; intros H; [done|].
  rewrite fmap_cons, H by (by left). f_equal. apply IH. intros x Hx. apply H. by right.
Qed.

Lemma flush_clean w : clean w → flush w = (inr (), w).
Proof.
  intros Hc.
  assert (Hs : sync_row w <$> tx w = tx w)
    by (apply fmap_id_on; intros; by apply sync_row_clean).
  rewrite flush_no_pending; rewrite ?Hs; [|by apply clean_new|by apply clean_email].
  by destruct w.
Qed.

Lemma clean_log w e : clean w → clean (set_trace (trace w ++ [e]) w).
Proof. intros [? ? ? ? ? ?]. by constructor. Qed.

Lemma clean_new_session w : clean w → clean (new_session w).
Proof.
  intros [Htx Hn Hk Hpk He Ho]. constructor; cbn; rewrite <- ?Htx; try done.
Qed.

(** ** Lookup by email *)

Lemma autoflush_step_clean w : clean w → autoflush_step w = (inr (), w).
Proof.
  intros Hc. unfold autoflush_step. destruct (autoflush w); [|done].
  by apply flush_clean.
Qed.

Lemma select_clean w e :
  clean w →
  db_execute_select_by_email e w
  = (inr (filter (λ r, email r = e) (tx w)), set_trace (trace w ++ [DbExecute]) w).
Proof.
  intros Hc. unfold db_execute_select_by_email.
  erewrite bind_inr by reflexivity.
  erewrite bind_inr by (apply autoflush_step_clean; by apply clean_log).
  done.
Qed.

Lemma get_missing w e :
  clean w → (∀ r, r ∈ tx w → email r ≠ e) →
  get_user_by_email e w = (inr None, set_trace (trace w ++ [DbExecute]) w).
Proof.
  intros Hc Hno. unfold get_user_by_email.
  erewrite bind_inr by (by apply select_clean).
  by rewrite filter_email_none.
Qed.

Lemma get_persistent w r pk l :
  clean w → r ∈ tx w → user_id r = Some pk → identity_map w !! pk = Some l →
  get_user_by_email (email r) w
  = (inr (Some l), set_trace (trace w ++ [DbExecute]) w).
Proof.
  intros Hc Hr Hpk Hl. unfold get_user_by_email.
  erewrite bind_inr by (by apply select_clean).
  rewrite filter_email_unique by (done || by apply clean_email).
  unfold scalar_one_or_none, instance_of, mbind, M_bind, mret, M_ret; cbn.
  by rewrite Hpk, Hl.
Qed.

Lemma get_loaded w r pk :
  clean w → r ∈ tx w → user_id r = Some pk → identity_map w !! pk = None →
  get_user_by_email (email r) w
  = (inr (Some (length (heap w))),
     set_identity_map (<[pk := length (heap w)]> (identity_map w))
       (set_heap (heap w ++ [r]) (set_trace (trace w ++ [DbExecute]) w))).
Proof.
  intros Hc Hr Hpk Hl. unfold get_user_by_email.
  erewrite bind_inr by (by apply select_clean).
  rewrite filter_email_unique by (done || by apply clean_email).
  unfold scalar_one_or_none, instance_of, mbind, M_bind, mret, M_ret; cbn.
  by rewrite Hpk, Hl.
Qed.

Lemma clean_loaded w r pk :
  clean w → r ∈ tx w → user_id r = Some pk → identity_map w !! pk = None →
  clean (set_identity_map (<[pk := length (heap w)]> (identity_map w))
           (set_heap (heap w ++ [r]) w)).
Proof.
  intros [Htx Hn Hk Hnd He Ho] Hr Hpk Hl. constructor; cbn; try done.
  intros pk' l' Hl'. destruct (decide (pk = pk')) as [<-|Hne].
  - rewrite lookup_insert_eq in Hl'. injection Hl' as <-.
    exists r. split_and!; try done.
    by rewrite lookup_app_r, Nat.sub_diag.
  - rewrite lookup_insert_ne in Hl' by done.
    destruct (Ho pk' l' Hl') as (o & Hh & Hid & Hin).
    exists o. split_and!; try done.
    by rewrite lookup_app_l by (by eapply lookup_lt_Some).
Qed.

(** On a clean session, the lookup of the email of a stored row returns an
    object that is a copy of the row, and leaves the tables alone. *)
Lemma get_found w r :
  clean w → r ∈ tx w →
  ∃ l w' pk,
    get_user_by_email (email r) w = (inr (Some l), w') ∧
    clean w' ∧
    heap w' !! l = Some r ∧
    user_id r = Some pk ∧
    identity_map w' !! pk = Some l ∧
    tx w' = tx w ∧
    trace w' = trace w ++ [DbExecute].
Proof.
  intros Hc Hr.
  destruct (clean_keys w Hc r Hr) as (pk & Hpk & _).
  destruct (identity_map w !! pk) as [l|] eqn:Hl.
  - exists l, (set_trace (trace w ++ [DbExecute]) w), pk.
    split_and!; try done.
    + by apply (get_persistent w r pk).
    + by apply clean_log.
    + by apply (clean_obj_row w pk).
  - eexists _, _, pk. split; [by apply (get_loaded w r pk)|].
    split_and!; try done.
    + by apply (clean_loaded (set_trace (trace w ++ [DbExecute]) w)); [apply clean_log|..].
    + cbn. by rewrite lookup_app_r, Nat.sub_diag.
    + cbn. by rewrite lookup_insert_eq.
Qed.

(** ** One attribute assignment on a persistent object, then commit *)

Lemma keeps_set_refresh_token v : keeps_identity (set_refresh_token v).
Proof. by split. Qed.
Lemma keeps_set_confirmed v : keeps_identity (set_confirmed v).
Proof. by split. Qed.
Lemma keeps_set_avatar v : keeps_identity (set_avatar v).
Proof. by split. Qed.
Lemma keeps_set_password v : keeps_identity (set_password v).
Proof. by split. Qed.
Lemma keeps_set_password_reset_token v : keeps_identity (set_password_reset_token v).
Proof. by split. Qed.

#[global] Hint Resolve keeps_set_refresh_token keeps_set_confirmed keeps_set_avatar
  keeps_set_password keeps_set_password_reset_token : core.

Lemma upd_user_id pk f r : keeps_identity f → user_id (upd pk f r) = user_id r.
Proof. intros [Hk _]. unfold upd. by case_decide. Qed.

Lemma upd_email pk f r : keeps_identity f → email (upd pk f r) = email r.
Proof. intros [_ He]. unfold upd. by case_decide. Qed.

Lemma upd_hit pk f r : user_id r = Some pk → upd pk f r = f r.
Proof. intros H. unfold upd. by rewrite decide_True. Qed.

Lemma upd_miss pk f r : user_id r ≠ Some pk → upd pk f r = r.
Proof. intros H. unfold upd. by rewrite decide_False. Qed.

Lemma fmap_upd_proj {B} (p : User → B) pk f (l : list User) :
  (∀ r, p (upd pk f r) = p r) → p <$> (upd pk f <$> l) = p <$> l.
Proof.
  intros H. rewrite <- list_fmap_compose. apply list_fmap_ext. intros i x _. apply H.
Qed.

Lemma sync_row_alter w w2 pk l f r :
  clean w → identity_map w !! pk = Some l → keeps_identity f →
  identity_map w2 = identity_map w → heap w2 = alter f l (heap w) →
  r ∈ tx w → sync_row w2 r = upd pk f r.
Proof.
  intros Hc Hl [Hk He] Him Hh Hr. unfold sync_row. rewrite Him, Hh.
  destruct (clean_keys w Hc r Hr) as (pk' & Hpk' & _). rewrite Hpk'.
  destruct (clean_objs w Hc pk l Hl) as (o & Ho & Hok & _).
  destruct (identity_map w !! pk') as [l'|] eqn:Hl'.
  - pose proof (clean_obj_row w pk' l' r Hc Hl' Hr Hpk') as Hr'.
    destruct (decide (l' = l)) as [->|Hne].
    + assert (pk' = pk) as -> by congruence.
      rewrite list_lookup_alter_eq, Hr'. cbn.
      rewrite upd_hit by done. apply set_user_id_same. by rewrite Hk.
    + rewrite list_lookup_alter_ne, Hr' by done.
      rewrite upd_miss by congruence. by apply set_user_id_same.
  - rewrite upd_miss; [done|]. congruence.
Qed.

Lemma commit_after_setattr w pk l f a :
  clean w → identity_map w !! pk = Some l → keeps_identity f →
  (setattr (Some l) a f;; db_commit) w = (inr (), updated pk l f w).
Proof.
  intros Hc Hl Hf.
  erewrite bind_inr by reflexivity. unfold db_commit.
  erewrite bind_inr by reflexivity.
  set (w2 := set_trace _ _).
  assert (Hs : sync_row w2 <$> tx w2 = upd pk f <$> tx w).
  { apply list_fmap_ext. intros i r Hi.
    apply (sync_row_alter w w2 pk l); try done.
    by apply list_elem_of_lookup_2 in Hi. }
  erewrite bind_inr; [|apply flush_no_pending].
  - rewrite Hs. pose proof (clean_new w Hc) as Hn. clear Hs Hc Hl.
    subst w2. destruct w; cbn in *. by subst.
  - exact (clean_new w Hc).
  - rewrite Hs, fmap_upd_proj; [exact (clean_email w Hc)|].
    intros. by apply upd_email.
Qed.

Lemma clean_updated w pk l f :
  clean w → identity_map w !! pk = Some l → keeps_identity f →
  clean (updated pk l f w).
Proof.
  intros Hc Hl Hf. pose proof Hc as [Htx Hn Hk Hnd He Ho].
  constructor; cbn; try done.
  - intros r' (r & -> & Hr)%list_elem_of_fmap. rewrite upd_user_id by done. by apply Hk.
  - rewrite fmap_upd_proj; [done|]. intros. by apply upd_user_id.
  - rewrite fmap_upd_proj; [done|]. intros. by apply upd_email.
  - intros pk' l' Hl'. destruct (Ho pk' l' Hl') as (o & Hh & Hid & Hin).
    destruct (decide (l' = l)) as [->|Hne].
    + exists (f o). rewrite list_lookup_alter_eq, Hh. split_and!; [done|..].
      * destruct Hf as [Hfk _]. by rewrite Hfk.
      * apply list_elem_of_fmap. exists o. split; [|done].
        rewrite upd_hit; [done|].
        destruct (Ho pk l Hl) as (o' & Hh' & Hid' & _). congruence.
    + exists o. rewrite list_lookup_alter_ne by done. split_and!; try done.
      apply list_elem_of_fmap. exists o. split; [|done].
      rewrite upd_miss; [done|]. rewrite Hid. intros [= ->]. congruence.
Qed.

(** ** Refresh of a persistent object *)

Lemma persistent_key_clean w pk l :
  clean w → identity_map w !! pk = Some l → persistent_key w l = Some pk.
Proof.
  intros Hc Hl. destruct (clean_objs w Hc pk l Hl) as (o & Ho & Hid & _).
  unfold persistent_key. rewrite Ho. cbn. rewrite Hid. cbn.
  by rewrite decide_True.
Qed.

Lemma reload_clean w pk l :
  clean w → identity_map w !! pk = Some l → reload l w = (inr (), w).
Proof.
  intros Hc Hl. unfold reload. rewrite (persistent_key_clean w pk l) by done.
  destruct (clean_objs w Hc pk l Hl) as (o & Ho & Hid & Hin).
  destruct (list_find _ (tx w)) as [[i r]|] eqn:Hfind.
  - apply list_find_Some in Hfind as (Hi & Hr & _).
    apply list_elem_of_lookup_2 in Hi.
    assert (r = o) as ->.
    { apply (NoDup_fmap_eq user_id (tx w)); [by apply clean_pk|done|done|congruence]. }
    rewrite list_insert_id by done. by destruct w.
  - apply list_find_None in Hfind.
    rewrite Forall_forall in Hfind. by destruct (Hfind o Hin).
Qed.

Lemma refresh_clean w pk l :
  clean w → identity_map w !! pk = Some l →
  db_refresh (Some l) w = (inr (), set_trace (trace w ++ [DbRefresh]) w).
Proof.
  intros Hc Hl. unfold db_refresh.
  erewrite bind_inr by reflexivity.
  by apply (reload_clean _ pk); [apply clean_log|].
Qed.

(** A refresh reads the object from its row: whatever values the object
    holds under its key, afterwards it holds the stored ones. *)
Lemma refresh_overwrites w pk l u stale :
  clean w → identity_map w !! pk = Some l → heap w !! l = Some u →
  user_id stale = Some pk →
  db_refresh (Some l) (set_heap (<[l := stale]> (heap w)) w)
  = (inr (), set_trace (trace w ++ [DbRefresh]) w).
Proof.
  intros Hc Hl Hh Hst.
  destruct (clean_objs w Hc pk l Hl) as (o & Ho & Hid & Hin).
  assert (o = u) as -> by congruence.
  pose proof (lookup_lt_Some _ _ _ Hh) as Hlt.
  unfold db_refresh. erewrite bind_inr by reflexivity.
  unfold reload, persistent_key. cbn.
  rewrite list_lookup_insert_eq by done. cbn. rewrite Hst. cbn.
  rewrite decide_True by done.
  destruct (list_find _ (tx w)) as [[i r]|] eqn:Hfind.
  - apply list_find_Some in Hfind as (Hi & Hr & _).
    apply list_elem_of_lookup_2 in Hi.
    assert (r = u) as ->.
    { apply (NoDup_fmap_eq user_id (tx w)); [by apply clean_pk|done|done|congruence]. }
    rewrite list_insert_insert_eq, list_insert_id by done. by destruct w.
  - apply list_find_None in Hfind.
    rewrite Forall_forall in Hfind. by destruct (Hfind u Hin).
Qed.

(** ** What a lookup shows *)

Lemma fresh_lookup_stored w r :
  clean w → r ∈ committed w →
  fresh_lookup (email r) w = Some r ∧
  fresh_lookup (email r) (new_session w) = Some r.
Proof.
  intros Hc Hr. split.
  - rewrite <- (clean_tx w Hc) in Hr.
    destruct (get_found w r Hc Hr) as (l & w' & pk & Hg & _ & Hh & _).
    unfold fresh_lookup. by rewrite Hg.
  - destruct (get_found (new_session w) r (clean_new_session w Hc) Hr)
      as (l & w' & pk & Hg & _ & Hh & _).
    unfold fresh_lookup. by rewrite Hg.
Qed.

(** ** Lookup by email, one assignment, commit *)

(** The common shape of [confirmed_email], [update_avatar_url] and
    [set_new_password] on a stored user: the lookup yields an object [l],
    and the assignment and the commit leave a clean session whose table
    holds the changed row. *)
Lemma update_by_email w r f a :
  clean w → r ∈ committed w → keeps_identity f →
  ∃ l pk w1 w2,
    get_user_by_email (email r) w = (inr (Some l), w1) ∧
    (setattr (Some l) a f;; db_commit) w1 = (inr (), w2) ∧
    clean w2 ∧
    f r ∈ committed w2 ∧
    heap w2 !! l = Some (f r) ∧
    identity_map w2 !! pk = Some l ∧
    committed w2 = upd pk f <$> committed w ∧
    trace w2 = trace w ++ [DbExecute; DbCommit].
Proof.
  intros Hc Hr Hf. pose proof (clean_tx w Hc) as Htx. rewrite <- Htx in Hr.
  destruct (get_found w r Hc Hr) as (l & w1 & pk & Hg & Hc1 & Hh & Hpk & Hl & Htx1 & Htr).
  exists l, pk, w1, (updated pk l f w1). split_and!; try done.
  - by apply commit_after_setattr.
  - by apply clean_updated.
  - cbn. rewrite Htx1. apply list_elem_of_fmap. exists r. by rewrite upd_hit.
  - cbn. by rewrite list_lookup_alter_eq, Hh.
  - cbn. by rewrite Htx1, Htx.
  - cbn. by rewrite Htr, <- app_assoc.
Qed.

(** The same for the functions that are handed the object. *)
Lemma update_by_handle w l r f a :
  clean w → persistent w l → heap w !! l = Some r → keeps_identity f →
  ∃ pk w2,
    (setattr (Some l) a f;; db_commit) w = (inr (), w2) ∧
    clean w2 ∧
    r ∈ committed w ∧
    f r ∈ committed w2 ∧
    heap w2 !! l = Some (f r) ∧
    identity_map w2 !! pk = Some l ∧
    committed w2 = upd pk f <$> committed w ∧
    trace w2 = trace w ++ [DbCommit].
Proof.
  intros Hc (o & pk & Ho & Hpk & Hl) Hh Hf.
  assert (o = r) as -> by congruence.
  destruct (clean_objs w Hc pk l Hl) as (o' & Ho' & _ & Hin).
  assert (o' = r) as -> by congruence.
  pose proof (clean_tx w Hc) as Htx.
  exists pk, (updated pk l f w). split_and!; try done.
  - by apply commit_after_setattr.
  - by apply clean_updated.
  - by rewrite <- Htx.
  - cbn. apply list_elem_of_fmap. exists r. by rewrite upd_hit.
  - cbn. by rewrite list_lookup_alter_eq, Hh.
  - cbn. by rewrite Htx.
Qed.

(** ** Creation *)

Lemma sync_row_grown w w2 r :
  clean w → identity_map w2 = identity_map w →
  (∀ l o, heap w !! l = Some o → heap w2 !! l = Some o) →
  r ∈ tx w → sync_row w2 r = r.
Proof.
  intros Hc Him Hh Hr. rewrite <- (sync_row_clean w r Hc Hr) at 2.
  unfold sync_row. rewrite Him.
  destruct (user_id r) as [pk|]; [|done].
  destruct (identity_map w !! pk) as [l|] eqn:Hl; [|done].
  destruct (clean_objs w Hc pk l Hl) as (o & Ho & _).
  by rewrite Ho, (Hh l o Ho).
Qed.

Lemma clean_created body a w :
  clean w → (∀ u, u ∈ committed w → email u ≠ um_email body) →
  clean (created body a w).
Proof.
  intros Hc Hfresh. pose proof Hc as [Htx Hn Hk Hnd He Ho].
  constructor; cbn.
  - by rewrite Htx.
  - done.
  - intros r [Hr| ->%list_elem_of_singleton]%elem_of_app.
    + destruct (Hk r Hr) as (pk & ? & ?). exists pk. split; [done|lia].
    + exists (next_id w). split; [done|lia].
  - rewrite fmap_app. apply NoDup_app. split_and!; [done| |apply NoDup_singleton].
    intros x (r & Hx & Hr)%list_elem_of_fmap Hx'%list_elem_of_singleton.
    destruct (Hk r Hr) as (pk & Hpk & Hlt). cbn in Hx'.
    assert (pk = next_id w) by congruence. lia.
  - rewrite fmap_app. apply NoDup_app. split_and!; [done| |apply NoDup_singleton].
    intros x (r & Hx & Hr)%list_elem_of_fmap Hx'%list_elem_of_singleton.
    rewrite Htx in Hr. apply (Hfresh r Hr). cbn in Hx'. congruence.
  - intros pk l Hl. destruct (decide (next_id w = pk)) as [<-|Hne].
    + rewrite lookup_insert_eq in Hl. injection Hl as <-.
      exists (created_user body a w). split_and!; [|done|].
      * by rewrite lookup_app_r, Nat.sub_diag.
      * apply elem_of_app. right. by apply list_elem_of_singleton.
    + rewrite lookup_insert_ne in Hl by done.
      destruct (Ho pk l Hl) as (o & Hh & Hid & Hin).
      exists o. split_and!; [|done|].
      * by rewrite lookup_app_l by (by eapply lookup_lt_Some).
      * apply elem_of_app. by left.
Qed.

Lemma lookup_snoc_last {A} (l : list A) (x : A) : (l ++ [x]) !! length l = Some x.
Proof. by rewrite lookup_app_r, Nat.sub_diag. Qed.

Lemma insert_snoc_last {A} (l : list A) (x y : A) :
  <[length l := y]> (l ++ [x]) = l ++ [y].
Proof. by rewrite insert_app_r_alt, Nat.sub_diag. Qed.

Lemma add_commit_run body a w :
  clean w → (∀ u, u ∈ committed w → email u ≠ um_email body) →
  (db_add (length (heap w));; db_commit)
    (set_heap (heap w ++ [mkUser None (um_email body) (um_password body) a
                                 false None None]) w)
  = (inr (), created body a w).
Proof.
  intros Hc Hfresh.
  pose proof (clean_created body a w Hc Hfresh) as Hc'.
  pose proof (clean_new w Hc) as Hn. pose proof (clean_tx w Hc) as Htx.
  set (o := mkUser None _ _ _ _ _ _).
  assert (Hadd : db_add (length (heap w)) (set_heap (heap w ++ [o]) w)
      = (inr (), set_new [length (heap w)]
                   (set_trace (trace w ++ [DbAdd]) (set_heap (heap w ++ [o]) w)))).
  { unfold db_add. erewrite bind_inr by reflexivity.
    unfold add_pending, persistent_key. cbn. rewrite Hn.
    rewrite decide_False by apply not_elem_of_nil.
    by rewrite lookup_snoc_last. }
  erewrite bind_inr by exact Hadd. clear Hadd.
  unfold db_commit. erewrite bind_inr by reflexivity.
  set (w3 := set_trace _ _).
  assert (Hs : sync_row w3 <$> tx w3 = tx w).
  { apply fmap_id_on. intros r Hr. apply (sync_row_grown w); try done.
    intros l o' Hl. cbn. by rewrite lookup_app_l by (by eapply lookup_lt_Some). }
  assert (Hflush : flush w3 = (inr (), set_committed (committed w) (created body a w))).
  { unfold flush. rewrite Hs. cbn. rewrite lookup_snoc_last. cbn.
    rewrite decide_True by exact (clean_email _ Hc').
    rewrite insert_snoc_last. subst w3 o. clear.
    destruct w; cbn. by rewrite <- app_assoc. }
  erewrite bind_inr by exact Hflush.
  unfold make_durable, created. cbn. by rewrite Htx.
Qed.

Lemma insert_user_run body a w :
  clean w → (∀ u, u ∈ committed w → email u ≠ um_email body) →
  (new_user ← User_init body a;
   db_add new_user;; db_commit;; db_refresh (Some new_user);; mret new_user) w
  = (inr (length (heap w)),
     set_trace (trace w ++ [DbAdd; DbCommit; DbRefresh]) (created body a w)).
Proof.
  intros Hc Hfresh.
  pose proof (clean_created body a w Hc Hfresh) as Hc'.
  pose proof (add_commit_run body a w Hc Hfresh) as Hrun.
  erewrite bind_inr by reflexivity.
  unfold mbind, M_bind in *.
  destruct (db_add _ _) as [[e|[]] w2]; [done|].
  destruct (db_commit w2) as [[e|[]] w3]; [done|].
  injection Hrun as ->.
  rewrite (refresh_clean _ (next_id w)); [|done|by cbn; rewrite lookup_insert_eq].
  cbn. by rewrite <- app_assoc.
Qed.

Lemma create_user_avatar_ok g body w url :
  clean w → (∀ u, u ∈ committed w → email u ≠ um_email body) →
  g (um_email body) = inr url →
  create_user g body w
  = (inr (length (heap w)),
     set_trace (trace w ++ [DbAdd; DbCommit; DbRefresh]) (created body (Some url) w)).
Proof.
  intros Hc Hfresh Hg. unfold create_user.
  erewrite bind_inr by (unfold try_except; rewrite Hg; reflexivity).
  by apply insert_user_run.
Qed.

Lemma create_user_avatar_err g body w err :
  clean w → (∀ u, u ∈ committed w → email u ≠ um_email body) →
  g (um_email body) = inl err →
  create_user g body w
  = (inr (length (heap w)),
     set_trace (trace w ++ [Printed err; DbAdd; DbCommit; DbRefresh])
       (created body None w)).
Proof.
  intros Hc Hfresh Hg. unfold create_user.
  erewrite bind_inr by (unfold try_except; rewrite Hg; reflexivity).
  rewrite insert_user_run; [|by apply clean_log|done].
  cbn. by rewrite <- !app_assoc.
Qed.

(** ** Effects issued by one invocation *)

Lemma issued_emits {A} (c : M A) t w :
  trace (c w).2 = trace w ++ t → issued c w = t.
Proof. intros H. unfold issued. by rewrite H, drop_app_length. Qed.

Lemma emits_log e : emits (log e) [e].
Proof. by intros w. Qed.

Lemma emits_bind_quiet {A B} (c : M A) (k : A → M B) t :
  emits c t → (∀ a, emits (k a) []) → emits (c ≫= k) t.
Proof.
  intros Hc Hk w. specialize (Hc w). unfold mbind, M_bind.
  destruct (c w) as [[e|a] w']; cbn in *; [done|].
  by rewrite (Hk a w'), Hc, app_nil_r.
Qed.

Lemma emits_log_bind {B} e (k : M B) t :
  emits k t → emits (log e;; k) (e :: t).
Proof.
  intros Hk w. unfold mbind, M_bind, log. cbn.
  rewrite (Hk _). cbn. by rewrite <- app_assoc.
Qed.

Lemma insert_pending_trace p w : trace (insert_pending p w) = trace w.
Proof.
  revert w. induction p as [|l p IH]; intros w; cbn; [done|].
  destruct (heap w !! l); by rewrite IH.
Qed.

Lemma emits_flush : emits flush [].
Proof.
  intros w. unfold flush. rewrite app_nil_r.
  case_decide; cbn; [|done]. by rewrite insert_pending_trace.
Qed.

Lemma emits_db_commit : emits db_commit [DbCommit].
Proof.
  apply emits_log_bind, emits_bind_quiet; [apply emits_flush|].
  intros _ w. cbn. by rewrite app_nil_r.
Qed.

Lemma emits_db_add l : emits (db_add l) [DbAdd].
Proof.
  apply emits_log_bind. intros w. unfold add_pending. rewrite app_nil_r.
  case_decide; [done|]. by destruct (persistent_key w l).
Qed.

Lemma emits_db_refresh target : emits (db_refresh target) [DbRefresh].
Proof.
  apply emits_log_bind. intros w. rewrite app_nil_r.
  destruct target as [l|]; [|done]. unfold reload.
  destruct (persistent_key w l); [|done].
  by destruct (list_find _ _) as [[? ?]|].
Qed.

Lemma emits_setattr target a f : emits (setattr target a f) [].
Proof. intros w. rewrite app_nil_r. by destruct target. Qed.

Lemma emits_get_user_by_email e : emits (get_user_by_email e) [DbExecute].
Proof.
  apply emits_bind_quiet.
  - apply emits_log_bind, emits_bind_quiet.
    + intros w. unfold autoflush_step. destruct (autoflush w); [apply emits_flush|].
      cbn. by rewrite app_nil_r.
    + intros _ w. cbn. by rewrite app_nil_r.
  - intros rows. apply emits_bind_quiet; [|intros u w; cbn; by rewrite app_nil_r].
    intros w. rewrite app_nil_r. destruct rows as [|r [|r' rows]]; try done.
    unfold scalar_one_or_none, mbind, M_bind, instance_of. cbn.
    destruct (user_id r) as [pk|]; [|done]. by destruct (identity_map w !! pk).
Qed.

(** Runs the next step [c] of a sequence: its effects, then a case on
    whether it returned. *)
Ltac run_step c lem :=
  match goal with
  | |- context [c ?w] =>
      let H := fresh "Ht" in
      pose proof (lem w : trace (c w).2 = _) as H;
      destruct (c w) as [[?|?] ?]; cbn [fst snd] in H |- *
  end.

Lemma bind_assoc {A B C} (c : M A) (k1 : A → M B) (k2 : B → M C) w :
  (c ≫= λ a, k1 a ≫= k2) w = ((c ≫= k1) ≫= k2) w.
Proof.
  unfold mbind, M_bind. by destruct (c w) as [[e|a] w'].
Qed.

Lemma emits_update_token user token : emits (update_token user token) [DbCommit].
Proof.
  intros w. unfold update_token, mbind, M_bind, setattr.
  by rewrite emits_db_commit.
Qed.

Lemma emits_update_reset_token user reset_token :
  emits (update_reset_token user reset_token) [DbCommit].
Proof.
  intros w. unfold update_reset_token, mbind, M_bind, setattr.
  run_step db_commit emits_db_commit; done.
Qed.

Lemma db_add_returns l w : ∃ w', db_add l w = (inr (), w').
Proof.
  unfold db_add, mbind, M_bind, log, add_pending. cbn.
  case_decide; [by eexists|]. destruct (persistent_key _ l); by eexists.
Qed.

(** [create_user] always reaches its commit: nothing before it can raise. *)
Lemma trace_create_user g body w :
  ∃ t, issued (create_user g body) w = avatar_log g body ++ DbAdd :: DbCommit :: t
       ∧ (t = [] ∨ t = [DbRefresh]).
Proof.
  assert (∀ (w1 : World) (k : () → M loc) (pre t1 : list Effect),
            trace w1 = trace w ++ pre →
            (∀ u w2, trace (k u w2).2 = trace w2 ++ t1) →
            trace ((db_commit ≫= k) w1).2 = trace w ++ pre ++ [DbCommit] ∨
            trace ((db_commit ≫= k) w1).2 = trace w ++ pre ++ DbCommit :: t1) as Hrest.
  { intros w1 k pre t1 Hpre Hk. unfold mbind, M_bind.
    run_step db_commit emits_db_commit.
    - left. by rewrite Ht, Hpre, <- app_assoc.
    - right. by rewrite Hk, Ht, Hpre, <- !app_assoc. }
  cut (∃ t, trace (create_user g body w).2
              = trace w ++ avatar_log g body ++ DbAdd :: DbCommit :: t
            ∧ (t = [] ∨ t = [DbRefresh])).
  { intros (t & H & Ht). exists t. split; [by apply issued_emits|done]. }
  unfold create_user, avatar_log, try_except, User_init.
  destruct (g (um_email body)) as [err|url];
    (erewrite bind_inr by reflexivity); (erewrite bind_inr by reflexivity);
    match goal with
    | |- context [mbind _ (db_add ?l) ?w1] =>
        pose proof (emits_db_add l w1) as Ht;
        destruct (db_add_returns l w1) as [w2 Hadd]
    end; rewrite Hadd in Ht; cbn in Ht;
    (erewrite bind_inr by exact Hadd);
    match goal with
    | |- context [mbind ?k db_commit ?wc] =>
        match type of Ht with
        | _ = trace w ++ ?pre => destruct (Hrest wc k pre [DbRefresh]) as [H|H]
        | _ = (trace w ++ ?p1) ++ ?p2 =>
            destruct (Hrest wc k (p1 ++ p2) [DbRefresh]) as [H|H]
        end
    end;
    try (by rewrite Ht, <- ?app_assoc);
    try (intros u w3; unfold mbind, M_bind;
         match goal with
         | |- context [db_refresh ?x _] =>
             run_step (db_refresh x) (emits_db_refresh x); done
         end).
  - exists []. rewrite H. cbn. auto.
  - exists [DbRefresh]. rewrite H. cbn. auto.
  - exists []. rewrite H. cbn. auto.
  - exists [DbRefresh]. rewrite H. cbn. auto.
Qed.

(** Closes a leaf of a run: every world's trace in terms of the first. *)
Ltac trace_leaf :=
  unfold issued, mret, M_ret; cbn [fst snd];
  repeat match goal with
         | H : trace _ = _ |- _ => rewrite H; clear H
         end;
  rewrite <- ?app_assoc, ?drop_app_length;
  split; [intros ? ?; (done || reflexivity)|vm_compute; lia].

Ltac run_setattr :=
  match goal with
  | |- context [setattr ?u ?a ?f _] => run_step (setattr u a f) (emits_setattr u a f)
  end.

Lemma trace_confirmed_email e w :
  (∀ a, (confirmed_email e w).1 = inr a →
        issued (confirmed_email e) w = [DbExecute; DbCommit])
  ∧ commits (issued (confirmed_email e) w) ≤ 1.
Proof.
  unfold issued, confirmed_email, mbind, M_bind.
  run_step (get_user_by_email e) (emits_get_user_by_email e); [trace_leaf|].
  run_setattr; [trace_leaf|].
  run_step db_commit emits_db_commit; trace_leaf.
Qed.

Lemma trace_update_avatar_url e url w :
  (∀ a, (update_avatar_url e url w).1 = inr a →
        issued (update_avatar_url e url) w = [DbExecute; DbCommit; DbRefresh])
  ∧ commits (issued (update_avatar_url e url) w) ≤ 1.
Proof.
  unfold issued, update_avatar_url, mbind, M_bind.
  run_step (get_user_by_email e) (emits_get_user_by_email e); [trace_leaf|].
  run_setattr; [trace_leaf|].
  run_step db_commit emits_db_commit; [trace_leaf|].
  match goal with
  | |- context [db_refresh ?x _] => run_step (db_refresh x) (emits_db_refresh x)
  end; trace_leaf.
Qed.

Lemma trace_set_new_password e pw w :
  (∀ a, (set_new_password e pw w).1 = inr a →
        issued (set_new_password e pw) w = [DbExecute; DbCommit])
  ∧ commits (issued (set_new_password e pw) w) ≤ 1.
Proof.
  unfold issued, set_new_password, mbind, M_bind.
  run_step (get_user_by_email e) (emits_get_user_by_email e); [trace_leaf|].
  run_setattr; [trace_leaf|].
  run_step db_commit emits_db_commit; trace_leaf.
Qed.

(** ** Concrete sessions *)

Lemma clean_empty_world : clean empty_world.
Proof.
  constructor; cbn; try done.
  - intros r Hr. by apply elem_of_nil in Hr.
  - apply NoDup_nil_2.
  - apply NoDup_nil_2.
Qed.

Lemma clean_alice_world : clean alice_world.
Proof.
  constructor; cbn; try done.
  - intros r ->%list_elem_of_singleton. exists 1. split; [done|lia].
  - apply NoDup_singleton.
  - apply NoDup_singleton.
  - intros pk l [<- <-]%lookup_singleton_Some. exists alice.
    split_and!; [done|done|by apply list_elem_of_singleton].
Qed.

Lemma alice_stored : alice ∈ committed alice_world.
Proof. by apply list_elem_of_singleton. Qed.

Lemma alice_persistent : persistent alice_world 0.
Proof. by exists alice, 1. Qed.

Lemma bob_not_stored : ∀ u, u ∈ committed alice_world → email u ≠ um_email bob_payload.
Proof. by intros u ->%list_elem_of_singleton. Qed.

(** ** Counting commits *)

Lemma commits_app t1 t2 : commits (t1 ++ t2) = commits t1 + commits t2.
Proof. unfold commits. by rewrite filter_app, length_app. Qed.

Lemma commits_avatar_log g body : commits (avatar_log g body) = 0.
Proof. unfold avatar_log. by destruct (g (um_email body)). Qed.

Lemma single_commit_on_return_intro {A} (c : M A) (w : World) t :
  (∀ a, (c w).1 = inr a → issued c w = t) → commits t = 1 →
  commits (issued c w) ≤ 1 → single_commit_on_return c w.
Proof. intros Hret Ht Hle. split; [|done]. intros a Ha. by rewrite (Hret a Ha). Qed.

(** ** Rows and fields an update leaves alone *)

Lemma persistent_stored w l r :
  clean w → persistent w l → heap w !! l = Some r → r ∈ committed w.
Proof.
  intros Hc (o & pk & Ho & _ & Hl) Hh.
  destruct (clean_objs w Hc pk l Hl) as (o' & Ho' & _ & Hin).
  rewrite <- (clean_tx w Hc). congruence.
Qed.

Lemma upd_others_kept w w' pk f r :
  clean w → r ∈ committed w → user_id r = Some pk →
  committed w' = upd pk f <$> committed w → others_kept r w w'.
Proof.
  intros Hc Hr Hpk Hcm v Hv Hne. rewrite Hcm.
  apply list_elem_of_fmap. exists v. split; [|done].
  rewrite upd_miss; [done|]. intros Hvpk. apply Hne.
  rewrite <- (clean_tx w Hc) in Hr, Hv.
  apply (NoDup_fmap_eq user_id (tx w)); [by apply clean_pk|done|done|congruence].
Qed.

Lemma update_by_handle_frame w l r f a :
  clean w → persistent w l → heap w !! l = Some r → keeps_identity f →
  ∃ w2,
    (setattr (Some l) a f;; db_commit) w = (inr (), w2) ∧
    clean w2 ∧ f r ∈ committed w2 ∧ heap w2 !! l = Some (f r) ∧ others_kept r w w2.
Proof.
  intros Hc Hp Hh Hf.
  destruct (update_by_handle w l r f a Hc Hp Hh Hf)
    as (pk & w2 & Hrun & Hc2 & Hr & Hin & Hh2 & Hl & Hcm & _).
  exists w2. split_and!; try done.
  apply (upd_others_kept w w2 pk f); try done.
  destruct (clean_objs w2 Hc2 pk l Hl) as (o & Ho & Hid & _).
  destruct Hf as [Hfk _]. rewrite <- (Hfk r). congruence.
Qed.

(** * The claims *)

(** C1 (violated by the code): with an email that matches no user,
    [confirmed_email], [update_avatar_url] and [set_new_password] do not
    yield a "not found" error: the lookup returns [None] and the attribute
    assignment on it raises [AttributeError], before any commit. *)
Theorem missing_user_raises_AttributeError :
  (confirmed_email "ghost@example.com" empty_world).1
    = inl (AttributeError "confirmed") ∧
  (update_avatar_url "ghost@example.com" (Some "https://img.example.com/g.png")
     empty_world).1
    = inl (AttributeError "avatar") ∧
  (set_new_password "ghost@example.com" "pbkdf2$ghost" empty_world).1
    = inl (AttributeError "password").
Proof. by vm_compute. Qed.

(** The same on every clean session and for every email that matches no
    stored user. *)
Lemma missing_user_crash (w : World) (e : string) url pw :
  clean w → (∀ v, v ∈ committed w → email v ≠ e) →
  (confirmed_email e w).1 = inl (AttributeError "confirmed") ∧
  (update_avatar_url e url w).1 = inl (AttributeError "avatar") ∧
  (set_new_password e pw w).1 = inl (AttributeError "password").
Proof.
  intros Hc Hno. rewrite <- (clean_tx w Hc) in Hno.
  pose proof (get_missing w e Hc Hno) as Hg.
  unfold confirmed_email, update_avatar_url, set_new_password.
  by rewrite !(bind_inr _ _ _ _ _ Hg).
Qed.

(** C2: on a clean session, [get_user_by_email] either returns an object
    holding the one stored user with that email, or returns [None] because
    no stored user has it; it raises in neither case. *)
Theorem get_user_by_email_unique_or_none (w : World) (e : string) :
  clean w →
  (∃ l w' u, get_user_by_email e w = (inr (Some l), w') ∧
             heap w' !! l = Some u ∧ u ∈ committed w ∧ email u = e ∧
             ∀ v, v ∈ committed w → email v = e → v = u)
  ∨ (∃ w', get_user_by_email e w = (inr None, w') ∧
           ∀ v, v ∈ committed w → email v ≠ e).
Proof.
  intros Hc. pose proof (clean_tx w Hc) as Htx. rewrite <- Htx.
  destruct (decide (Exists (λ v, email v = e) (tx w))) as [Hex|Hno].
  - left. apply Exists_exists in Hex as (u & Hu & <-).
    destruct (get_found w u Hc Hu) as (l & w' & pk & Hg & _ & Hh & _).
    exists l, w', u. split_and!; try done.
    intros v Hv Hve. apply (NoDup_fmap_eq email (tx w)); try done.
    by apply clean_email.
  - right. eexists. split.
    + apply get_missing; [done|]. intros r Hr He. apply Hno.
      apply Exists_exists. by exists r.
    + intros v Hv He. apply Hno. apply Exists_exists. by exists v.
Qed.

Lemma get_user_by_email_unique_or_none_witness :
  (∃ l w' u, get_user_by_email "alice@example.com" alice_world = (inr (Some l), w') ∧
             heap w' !! l = Some u ∧ u ∈ committed alice_world ∧
             email u = "alice@example.com" ∧
             ∀ v, v ∈ committed alice_world → email v = "alice@example.com" → v = u)
  ∨ (∃ w', get_user_by_email "alice@example.com" alice_world = (inr None, w') ∧
           ∀ v, v ∈ committed alice_world → email v ≠ "alice@example.com").
Proof.
  apply (get_user_by_email_unique_or_none alice_world "alice@example.com").
  apply clean_alice_world.
Defined.

(** C3: when the avatar lookup raises, [create_user] with a payload whose
    email is not stored yet prints the error, inserts the user without an
    avatar and returns it; nothing is raised. *)
Theorem create_user_avatar_failure_suppressed
    (g : Gravatar) (body : UserModel) (w : World) (err : Exception) :
  clean w → (∀ v, v ∈ committed w → email v ≠ um_email body) →
  g (um_email body) = inl err →
  ∃ l w' u, create_user g body w = (inr l, w') ∧
            heap w' !! l = Some u ∧
            avatar u = None ∧
            email u = um_email body ∧ password u = um_password body ∧
            committed w' = committed w ++ [u] ∧
            issued (create_user g body) w = [Printed err; DbAdd; DbCommit; DbRefresh].
Proof.
  intros Hc Hfresh Hg.
  pose proof (create_user_avatar_err g body w err Hc Hfresh Hg) as Hrun.
  eexists _, _, (created_user body None w). split; [exact Hrun|].
  split_and!; try done.
  - cbn. apply lookup_snoc_last.
  - apply issued_emits. by rewrite Hrun.
Qed.

Lemma create_user_avatar_failure_suppressed_witness :
  ∃ l w' u, create_user gravatar_down bob_payload alice_world = (inr l, w') ∧
            heap w' !! l = Some u ∧
            avatar u = None ∧
            email u = um_email bob_payload ∧ password u = um_password bob_payload ∧
            committed w' = committed alice_world ++ [u] ∧
            issued (create_user gravatar_down bob_payload) alice_world
            = [Printed (LookupFailure "connection refused"); DbAdd; DbCommit; DbRefresh].
Proof.
  apply (create_user_avatar_failure_suppressed gravatar_down bob_payload alice_world
           (LookupFailure "connection refused")).
  - apply clean_alice_world.
  - apply bob_not_stored.
  - reflexivity.
Defined.

(** C4: when the avatar lookup returns a URL (a non-empty string), the
    user [create_user] returns has that URL as avatar, which is thus
    non-empty, the email and password of the payload, and the defaults
    elsewhere. *)
Theorem create_user_avatar_from_lookup
    (g : Gravatar) (body : UserModel) (w : World) (url : string) :
  clean w → (∀ v, v ∈ committed w → email v ≠ um_email body) →
  g (um_email body) = inr url → url ≠ "" →
  ∃ l w' u, create_user g body w = (inr l, w') ∧
            heap w' !! l = Some u ∧
            avatar u = Some url ∧ avatar u ≠ Some "" ∧ avatar u ≠ None ∧
            email u = um_email body ∧ password u = um_password body ∧
            confirmed u = false ∧ refresh_token u = None ∧
            password_reset_token u = None ∧
            committed w' = committed w ++ [u].
Proof.
  intros Hc Hfresh Hg Hurl.
  pose proof (create_user_avatar_ok g body w url Hc Hfresh Hg) as Hrun.
  eexists _, _, (created_user body (Some url) w). split; [exact Hrun|].
  split_and!; try done.
  - cbn. apply lookup_snoc_last.
  - cbn. congruence.
Qed.

Lemma create_user_avatar_from_lookup_witness :
  ∃ l w' u, create_user gravatar_up bob_payload alice_world = (inr l, w') ∧
            heap w' !! l = Some u ∧
            avatar u = Some "https://www.gravatar.com/avatar/bob@example.com" ∧
            avatar u ≠ Some "" ∧ avatar u ≠ None ∧
            email u = um_email bob_payload ∧ password u = um_password bob_payload ∧
            confirmed u = false ∧ refresh_token u = None ∧
            password_reset_token u = None ∧
            committed w' = committed alice_world ++ [u].
Proof.
  apply (create_user_avatar_from_lookup gravatar_up bob_payload alice_world
           "https://www.gravatar.com/avatar/bob@example.com").
  - apply clean_alice_world.
  - apply bob_not_stored.
  - reflexivity.
  - discriminate.
Defined.

(** C5: after [set_new_password email pw] for a stored user, a lookup of
    that email, in the same session or in a new one, shows the password
    [pw] itself. *)
Theorem set_new_password_stored_verbatim (w : World) (r : User) (pw : string) :
  clean w → r ∈ committed w →
  ∃ l w' u, set_new_password (email r) pw w = (inr (Some l), w') ∧
            heap w' !! l = Some u ∧
            fresh_lookup (email r) w' = Some u ∧
            fresh_lookup (email r) (new_session w') = Some u ∧
            password u = pw.
Proof.
  intros Hc Hr.
  destruct (update_by_email w r (set_password pw) "password" Hc Hr)
    as (l & pk & w1 & w2 & Hg & Hrun & Hc2 & Hin & Hh & _); [done|].
  exists l, w2, (set_password pw r).
  destruct (fresh_lookup_stored w2 _ Hc2 Hin) as [Hsame Hnew].
  split_and!; try done.
  unfold set_new_password. erewrite bind_inr by exact Hg.
  rewrite (bind_assoc (setattr _ _ _) (λ _, db_commit)).
  by erewrite bind_inr by exact Hrun.
Qed.

Lemma set_new_password_stored_verbatim_witness :
  ∃ l w' u, set_new_password (email alice) "pbkdf2$changed" alice_world
              = (inr (Some l), w') ∧
            heap w' !! l = Some u ∧
            fresh_lookup (email alice) w' = Some u ∧
            fresh_lookup (email alice) (new_session w') = Some u ∧
            password u = "pbkdf2$changed".
Proof.
  apply (set_new_password_stored_verbatim alice_world alice "pbkdf2$changed").
  - apply clean_alice_world.
  - apply alice_stored.
Defined.

(** C6: after [confirmed_email email] for a stored user, a lookup of that
    email shows [confirmed] true, and the changed row is in the durable
    table, written by the one commit of the call. *)
Theorem confirmed_email_sets_flag (w : World) (r : User) :
  clean w → r ∈ committed w →
  ∃ w' u, confirmed_email (email r) w = (inr (), w') ∧
          fresh_lookup (email r) w' = Some u ∧
          fresh_lookup (email r) (new_session w') = Some u ∧
          confirmed u = true ∧
          u ∈ committed w' ∧ tx w' = committed w' ∧
          issued (confirmed_email (email r)) w = [DbExecute; DbCommit].
Proof.
  intros Hc Hr.
  destruct (update_by_email w r (set_confirmed true) "confirmed" Hc Hr)
    as (l & pk & w1 & w2 & Hg & Hrun & Hc2 & Hin & Hh & _ & _ & Htr); [done|].
  assert (Hop : confirmed_email (email r) w = (inr (), w2)).
  { unfold confirmed_email. by erewrite bind_inr by exact Hg. }
  exists w2, (set_confirmed true r).
  destruct (fresh_lookup_stored w2 _ Hc2 Hin) as [Hsame Hnew].
  split_and!; try done.
  - by apply clean_tx.
  - apply issued_emits. by rewrite Hop.
Qed.

Lemma confirmed_email_sets_flag_witness :
  ∃ w' u, confirmed_email (email alice) alice_world = (inr (), w') ∧
          fresh_lookup (email alice) w' = Some u ∧
          fresh_lookup (email alice) (new_session w') = Some u ∧
          confirmed u = true ∧
          u ∈ committed w' ∧ tx w' = committed w' ∧
          issued (confirmed_email (email alice)) alice_world = [DbExecute; DbCommit].
Proof.
  apply (confirmed_email_sets_flag alice_world alice).
  - apply clean_alice_world.
  - apply alice_stored.
Defined.

(** C7: after [update_token user token] on an object the session holds, a
    lookup of that user's email shows [refresh_token] equal to [token],
    a string or [None] alike. *)
Theorem update_token_sets_refresh_token
    (w : World) (user : loc) (r : User) (token : option string) :
  clean w → persistent w user → heap w !! user = Some r →
  ∃ w' u, update_token user token w = (inr (), w') ∧
          fresh_lookup (email r) w' = Some u ∧
          fresh_lookup (email r) (new_session w') = Some u ∧
          refresh_token u = token.
Proof.
  intros Hc Hp Hh.
  destruct (update_by_handle w user r (set_refresh_token token) "refresh_token" Hc Hp Hh)
    as (pk & w2 & Hrun & Hc2 & _ & Hin & _); [done|].
  exists w2, (set_refresh_token token r).
  destruct (fresh_lookup_stored w2 _ Hc2 Hin) as [Hsame Hnew].
  by split_and!.
Qed.

Lemma update_token_sets_refresh_token_witness :
  (∃ w' u, update_token 0 (Some "abc") alice_world = (inr (), w') ∧
           fresh_lookup (email alice) w' = Some u ∧
           fresh_lookup (email alice) (new_session w') = Some u ∧
           refresh_token u = Some "abc")
  ∧ (∃ w' u, update_token 0 None alice_world = (inr (), w') ∧
             fresh_lookup (email alice) w' = Some u ∧
             fresh_lookup (email alice) (new_session w') = Some u ∧
             refresh_token u = None).
Proof.
  split.
  - apply (update_token_sets_refresh_token alice_world 0 alice (Some "abc")).
    + apply clean_alice_world.
    + apply alice_persistent.
    + reflexivity.
  - apply (update_token_sets_refresh_token alice_world 0 alice None).
    + apply clean_alice_world.
    + apply alice_persistent.
    + reflexivity.
Defined.

(** C8: [update_avatar_url email url] for a stored user sets the avatar
    to [url], commits, reloads the row and returns the object.  The
    lookup, the assignment and the commit take the session to [w2]; the
    refresh of the object takes [w2] to the final [w'], and it is a reload:
    whatever values the object had held in [w2] under its key, the refresh
    leaves in it the values of the stored row.  The returned user and a
    later lookup, in the same session or a new one, show avatar [url], a
    string or [None] alike. *)
Theorem update_avatar_url_sets_avatar (w : World) (r : User) (url : option string) :
  clean w → r ∈ committed w →
  ∃ l w2 w' u,
    (user ← get_user_by_email (email r);
     setattr user "avatar" (set_avatar url);;
     db_commit;;
     mret user) w = (inr (Some l), w2) ∧
    db_refresh (Some l) w2 = (inr (), w') ∧
    (∀ stale, user_id stale = user_id u →
              db_refresh (Some l) (set_heap (<[l := stale]> (heap w2)) w2)
              = (inr (), w')) ∧
    update_avatar_url (email r) url w = (inr (Some l), w') ∧
    heap w' !! l = Some u ∧
    fresh_lookup (email r) w' = Some u ∧
    fresh_lookup (email r) (new_session w') = Some u ∧
    avatar u = url ∧
    u ∈ committed w' ∧
    issued (update_avatar_url (email r) url) w
    = [DbExecute; DbCommit; DbRefresh].
Proof.
  intros Hc Hr.
  destruct (update_by_email w r (set_avatar url) "avatar" Hc Hr)
    as (l & pk & w1 & w2 & Hg & Hrun & Hc2 & Hin & Hh & Hl & _ & Htr); [done|].
  assert (Hpk : user_id (set_avatar url r) = Some pk).
  { destruct (clean_objs w2 Hc2 pk l Hl) as (o & Ho & Hid & _). congruence. }
  assert (Hpre : (user ← get_user_by_email (email r);
                  setattr user "avatar" (set_avatar url);;
                  db_commit;;
                  mret user) w = (inr (Some l), w2)).
  { erewrite bind_inr by exact Hg.
    rewrite (bind_assoc (setattr _ _ _) (λ _, db_commit)).
    by erewrite bind_inr by exact Hrun. }
  pose proof (refresh_clean w2 pk l Hc2 Hl) as Href.
  assert (Hop : update_avatar_url (email r) url w
                = (inr (Some l), set_trace (trace w2 ++ [DbRefresh]) w2)).
  { unfold update_avatar_url. erewrite bind_inr by exact Hg.
    rewrite (bind_assoc (setattr _ _ _) (λ _, db_commit)).
    erewrite bind_inr by exact Hrun.
    by erewrite bind_inr by exact Href. }
  exists l, w2, (set_trace (trace w2 ++ [DbRefresh]) w2), (set_avatar url r).
  destruct (fresh_lookup_stored _ _ (clean_log w2 DbRefresh Hc2) Hin) as [Hsame Hnew].
  split_and!; try done.
  - intros stale Hst. apply (refresh_overwrites w2 pk l (set_avatar url r)); try done.
    congruence.
  - apply issued_emits. rewrite Hop. cbn. by rewrite Htr, <- app_assoc.
Qed.

Lemma update_avatar_url_sets_avatar_witness :
  ∃ l w2 w' u,
    (user ← get_user_by_email (email alice);
     setattr user "avatar" (set_avatar (Some "https://img.example.com/a.png"));;
     db_commit;;
     mret user) alice_world = (inr (Some l), w2) ∧
    db_refresh (Some l) w2 = (inr (), w') ∧
    (∀ stale, user_id stale = user_id u →
              db_refresh (Some l) (set_heap (<[l := stale]> (heap w2)) w2)
              = (inr (), w')) ∧
    update_avatar_url (email alice) (Some "https://img.example.com/a.png")
      alice_world = (inr (Some l), w') ∧
    heap w' !! l = Some u ∧
    fresh_lookup (email alice) w' = Some u ∧
    fresh_lookup (email alice) (new_session w') = Some u ∧
    avatar u = Some "https://img.example.com/a.png" ∧
    u ∈ committed w' ∧
    issued (update_avatar_url (email alice)
              (Some "https://img.example.com/a.png")) alice_world
    = [DbExecute; DbCommit; DbRefresh].
Proof.
  apply (update_avatar_url_sets_avatar alice_world alice
           (Some "https://img.example.com/a.png")).
  - apply clean_alice_world.
  - apply alice_stored.
Defined.

(** C9 as stated fails: an invocation whose lookup finds no user raises
    before it reaches its commit. *)
Lemma confirmed_email_missing_user_no_commit :
  ¬ single_commit (confirmed_email "ghost@example.com") empty_world.
Proof. by vm_compute. Qed.

(** C9, amended: [create_user], [update_token] and [update_reset_token]
    issue exactly one commit on every invocation; [confirmed_email],
    [update_avatar_url] and [set_new_password] issue exactly one commit on
    every invocation that returns, and never more than one. *)
Theorem one_commit_per_returning_invocation
    (w : World) (g : Gravatar) (body : UserModel) (user : loc)
    (token reset_token url : option string) (e pw : string) :
  single_commit (create_user g body) w ∧
  single_commit (update_token user token) w ∧
  single_commit (update_reset_token user reset_token) w ∧
  single_commit_on_return (confirmed_email e) w ∧
  single_commit_on_return (update_avatar_url e url) w ∧
  single_commit_on_return (set_new_password e pw) w.
Proof.
  split_and!.
  - destruct (trace_create_user g body w) as (t & Ht & Hcase).
    unfold single_commit. rewrite Ht, commits_app, commits_avatar_log.
    by destruct Hcase as [-> | ->].
  - unfold single_commit.
    by rewrite (issued_emits _ _ _ (emits_update_token user token w)).
  - unfold single_commit.
    by rewrite (issued_emits _ _ _ (emits_update_reset_token user reset_token w)).
  - destruct (trace_confirmed_email e w) as [Hret Hle].
    by apply (single_commit_on_return_intro _ _ [DbExecute; DbCommit]).
  - destruct (trace_update_avatar_url e url w) as [Hret Hle].
    by apply (single_commit_on_return_intro _ _ [DbExecute; DbCommit; DbRefresh]).
  - destruct (trace_set_new_password e pw w) as [Hret Hle].
    by apply (single_commit_on_return_intro _ _ [DbExecute; DbCommit]).
Qed.

(** C10: each single-field operation changes the one field it names.  For
    a user [r] the session holds at [user]: after the call the object and
    a lookup from a new session show a user that agrees with [r] on every
    other field, the email included, and the rows of the other users are
    as before. *)
Theorem single_field_updates_frame
    (w : World) (user : loc) (r : User) (token reset_token : option string)
    (pw : string) :
  clean w → persistent w user → heap w !! user = Some r →
  (∃ w' u, update_token user token w = (inr (), w') ∧
           heap w' !! user = Some u ∧
           fresh_lookup (email r) (new_session w') = Some u ∧
           refresh_token u = token ∧
           differ_only_in_refresh_token r u ∧ others_kept r w w') ∧
  (∃ w' u, confirmed_email (email r) w = (inr (), w') ∧
           heap w' !! user = Some u ∧
           fresh_lookup (email r) (new_session w') = Some u ∧
           confirmed u = true ∧
           differ_only_in_confirmed r u ∧ others_kept r w w') ∧
  (∃ w' u, set_new_password (email r) pw w = (inr (Some user), w') ∧
           heap w' !! user = Some u ∧
           fresh_lookup (email r) (new_session w') = Some u ∧
           password u = pw ∧
           differ_only_in_password r u ∧ others_kept r w w') ∧
  (∃ w' u, update_reset_token user reset_token w = (inr user, w') ∧
           heap w' !! user = Some u ∧
           fresh_lookup (email r) (new_session w') = Some u ∧
           password_reset_token u = reset_token ∧
           differ_only_in_password_reset_token r u ∧ others_kept r w w').
Proof.
  intros Hc Hp Hh.
  pose proof (persistent_stored w user r Hc Hp Hh) as Hr.
  assert (Hget : get_user_by_email (email r) w
                 = (inr (Some user), set_trace (trace w ++ [DbExecute]) w)).
  { destruct Hp as (o & pk & Ho & Hpk & Hl). apply (get_persistent w r pk).
    - done.
    - by rewrite (clean_tx w Hc).
    - congruence.
    - done. }
  assert (Hlog : clean (set_trace (trace w ++ [DbExecute]) w)) by by apply clean_log.
  assert (Hp' : persistent (set_trace (trace w ++ [DbExecute]) w) user) by done.
  split_and!.
  - destruct (update_by_handle_frame w user r (set_refresh_token token)
                "refresh_token" Hc Hp Hh) as (w2 & Hrun & Hc2 & Hin & Hh2 & Hk); [done|].
    exists w2, (set_refresh_token token r).
    destruct (fresh_lookup_stored w2 _ Hc2 Hin) as [_ Hnew].
    by split_and!.
  - destruct (update_by_handle_frame _ user r (set_confirmed true)
                "confirmed" Hlog Hp' Hh) as (w2 & Hrun & Hc2 & Hin & Hh2 & Hk); [done|].
    exists w2, (set_confirmed true r).
    destruct (fresh_lookup_stored w2 _ Hc2 Hin) as [_ Hnew].
    split_and!; try done.
    unfold confirmed_email. by erewrite bind_inr by exact Hget.
  - destruct (update_by_handle_frame _ user r (set_password pw)
                "password" Hlog Hp' Hh) as (w2 & Hrun & Hc2 & Hin & Hh2 & Hk); [done|].
    exists w2, (set_password pw r).
    destruct (fresh_lookup_stored w2 _ Hc2 Hin) as [_ Hnew].
    split_and!; try done.
    unfold set_new_password. erewrite bind_inr by exact Hget.
    rewrite (bind_assoc (setattr _ _ _) (λ _, db_commit)).
    by erewrite bind_inr by exact Hrun.
  - destruct (update_by_handle_frame w user r (set_password_reset_token reset_token)
                "password_reset_token" Hc Hp Hh)
      as (w2 & Hrun & Hc2 & Hin & Hh2 & Hk); [done|].
    exists w2, (set_password_reset_token reset_token r).
    destruct (fresh_lookup_stored w2 _ Hc2 Hin) as [_ Hnew].
    split_and!; try done.
    unfold update_reset_token.
    rewrite (bind_assoc (setattr _ _ _) (λ _, db_commit)).
    by erewrite bind_inr by exact Hrun.
Qed.

Lemma single_field_updates_frame_witness :
  (∃ w' u, update_token 0 (Some "abc") alice_world = (inr (), w') ∧
           heap w' !! 0 = Some u ∧
           fresh_lookup (email alice) (new_session w') = Some u ∧
           refresh_token u = Some "abc" ∧
           differ_only_in_refresh_token alice u ∧ others_kept alice alice_world w') ∧
  (∃ w' u, confirmed_email (email alice) alice_world = (inr (), w') ∧
           heap w' !! 0 = Some u ∧
           fresh_lookup (email alice) (new_session w') = Some u ∧
           confirmed u = true ∧
           differ_only_in_confirmed alice u ∧ others_kept alice alice_world w') ∧
  (∃ w' u, set_new_password (email alice) "pbkdf2$changed" alice_world
             = (inr (Some 0), w') ∧
           heap w' !! 0 = Some u ∧
           fresh_lookup (email alice) (new_session w') = Some u ∧
           password u = "pbkdf2$changed" ∧
           differ_only_in_password alice u ∧ others_kept alice alice_world w') ∧
  (∃ w' u, update_reset_token 0 (Some "reset-1") alice_world = (inr 0, w') ∧
           heap w' !! 0 = Some u ∧
           fresh_lookup (email alice) (new_session w') = Some u ∧
           password_reset_token u = Some "reset-1" ∧
           differ_only_in_password_reset_token alice u ∧
           others_kept alice alice_world w').
Proof.
  apply (single_field_updates_frame alice_world 0 alice (Some "abc") (Some "reset-1")
           "pbkdf2$changed").
  - apply clean_alice_world.
  - apply alice_persistent.
  - reflexivity.
Defined.


(** * Further properties of the repository functions *)

(** ** Helpers *)

Lemma clean_set_trace w t : clean w → clean (set_trace t w).
Proof. intros [? ? ? ? ? ?]. by constructor. Qed.

Lemma insert_pending_committed p w :
  committed (insert_pending p w) = committed w.
Proof.
  revert w. induction p as [|l p IH]; intros w; cbn; [done|].
  destruct (heap w !! l); by rewrite IH.
Qed.

Lemma flush_committed w : committed (flush w).2 = committed w.
Proof.
  unfold flush. case_decide; cbn; [|done]. by rewrite insert_pending_committed.
Qed.

Lemma select_committed e w :
  committed (db_execute_select_by_email e w).2 = committed w.
Proof.
  unfold db_execute_select_by_email, mbind, M_bind, log, autoflush_step,
    rows_by_email. cbn.
  destruct (autoflush w); [|done].
  pose proof (flush_committed (set_trace (trace w ++ [DbExecute]) w)) as Hf.
  by destruct (flush _) as [[err|[]] w1].
Qed.

Lemma scalar_one_or_none_committed rows w :
  committed (scalar_one_or_none rows w).2 = committed w.
Proof.
  destruct rows as [|r [|r' rows]]; try done.
  unfold scalar_one_or_none, mbind, M_bind, instance_of.
  destruct (user_id r) as [pk|]; [|done]. by destruct (identity_map w !! pk).
Qed.

Lemma bind_inl {A B} (c : M A) (k : A → M B) w e w' :
  c w = (inl e, w') → (c ≫= k) w = (inl e, w').
Proof. intros H. unfold mbind, M_bind. by rewrite H. Qed.

Lemma persistent_key_Some w l pk :
  persistent_key w l = Some pk → identity_map w !! pk = Some l.
Proof.
  unfold persistent_key. destruct (heap w !! l) as [o|]; cbn; [|done].
  destruct (user_id o) as [pk'|]; cbn; [|done].
  case_decide; [|done]. by intros [= <-].
Qed.

Lemma persistent_of_key w l pk :
  clean w → identity_map w !! pk = Some l → persistent w l.
Proof.
  intros Hc Hl. destruct (clean_objs w Hc pk l Hl) as (o & Ho & Hid & _).
  by exists o, pk.
Qed.

Lemma same_keys_and_emails_upd w w' pk f :
  keeps_identity f → committed w' = upd pk f <$> committed w →
  same_keys_and_emails w w'.
Proof.
  intros Hf Hcm. unfold same_keys_and_emails. rewrite Hcm.
  split; apply fmap_upd_proj; intros; [by apply upd_user_id|by apply upd_email].
Qed.

(** The two outcomes of a lookup on a clean session, with what the
    assignment and the commit do after it. *)
Lemma by_email_outcome w e f a :
  clean w → keeps_identity f →
  (∃ r l pk w1 w2,
      r ∈ committed w ∧ email r = e ∧ user_id r = Some pk ∧
      get_user_by_email e w = (inr (Some l), w1) ∧
      (setattr (Some l) a f;; db_commit) w1 = (inr (), w2) ∧
      clean w2 ∧ identity_map w2 !! pk = Some l ∧
      heap w2 !! l = Some (f r) ∧ f r ∈ committed w2 ∧
      committed w2 = upd pk f <$> committed w ∧
      trace w2 = trace w ++ [DbExecute; DbCommit])
  ∨ ((∀ v, v ∈ committed w → email v ≠ e) ∧
     get_user_by_email e w = (inr None, set_trace (trace w ++ [DbExecute]) w)).
Proof.
  intros Hc Hf. pose proof (clean_tx w Hc) as Htx.
  destruct (decide (Exists (λ v, email v = e) (committed w))) as [Hex|Hno].
  - left. apply Exists_exists in Hex as (r & Hr & <-).
    destruct (update_by_email w r f a Hc Hr Hf)
      as (l & pk & w1 & w2 & Hg & Hrun & Hc2 & Hin & Hh & Hl & Hcm & Htr).
    exists r, l, pk, w1, w2. split_and!; try done.
    destruct (clean_objs w2 Hc2 pk l Hl) as (o & Ho & Hid & _).
    destruct Hf as [Hfk _]. rewrite <- (Hfk r). congruence.
  - right. assert (∀ v, v ∈ committed w → email v ≠ e) as Hmiss.
    { intros v Hv He. apply Hno, Exists_exists. by exists v. }
    split; [done|]. apply get_missing; [done|]. by rewrite Htx.
Qed.

(** Commit after an assignment on an object the session does not hold:
    nothing reaches the tables. *)
Lemma commit_detached w l f a :
  clean w → (∀ pk, identity_map w !! pk ≠ Some l) →
  (setattr (Some l) a f;; db_commit) w
  = (inr (), set_trace (trace w ++ [DbCommit]) (set_heap (alter f l (heap w)) w))
  ∧ clean (set_trace (trace w ++ [DbCommit]) (set_heap (alter f l (heap w)) w)).
Proof.
  intros Hc Hdet.
  assert (Hc' : clean (set_heap (alter f l (heap w)) w)).
  { pose proof Hc as [Htx Hn Hk Hnd He Ho]. constructor; cbn; try done.
    intros pk l' Hl'. destruct (Ho pk l' Hl') as (o & Hh & Hid & Hin).
    exists o. split_and!; try done.
    rewrite list_lookup_alter_ne; [done|]. intros ->. by apply (Hdet pk). }
  split; [|by apply clean_set_trace].
  erewrite bind_inr by reflexivity. unfold db_commit.
  erewrite bind_inr by reflexivity.
  erewrite bind_inr by (apply flush_clean; by apply clean_set_trace).
  unfold make_durable. cbn. f_equal.
  pose proof (clean_tx w Hc) as Htx. clear Hc Hc' Hdet.
  destruct w; cbn in *. by subst.
Qed.

Lemma clean_detached_world : clean detached_world.
Proof.
  constructor; cbn; try done.
  - intros r ->%list_elem_of_singleton. exists 1. split; [done|lia].
  - apply NoDup_singleton.
  - apply NoDup_singleton.
  - intros pk l [<- <-]%lookup_singleton_Some. exists alice.
    split_and!; [done|done|by apply list_elem_of_singleton].
Qed.

(** ** The lookup *)

(** X1: on every session state, [get_user_by_email] runs one query and
    nothing else, and leaves the durable table as it was, whether it
    returns or raises. *)
Theorem get_user_by_email_read_only (e : string) (w : World) :
  issued (get_user_by_email e) w = [DbExecute] ∧
  committed (get_user_by_email e w).2 = committed w.
Proof.
  split; [apply issued_emits, emits_get_user_by_email|].
  unfold get_user_by_email, mbind, M_bind.
  pose proof (select_committed e w) as Hs.
  destruct (db_execute_select_by_email e w) as [[err|rows] w1]; cbn in Hs; [done|].
  pose proof (scalar_one_or_none_committed rows w1) as Hr.
  destruct (scalar_one_or_none rows w1) as [[err|u] w2]; cbn in *; congruence.
Qed.

(** X2: two lookups of a stored email in one session return the same
    object: the second finds it in the identity map and loads nothing. *)
Theorem get_user_by_email_same_object (w : World) (r : User) :
  clean w → r ∈ committed w →
  ∃ l w1, get_user_by_email (email r) w = (inr (Some l), w1) ∧
          heap w1 !! l = Some r ∧
          get_user_by_email (email r) w1
          = (inr (Some l), set_trace (trace w1 ++ [DbExecute]) w1).
Proof.
  intros Hc Hr. rewrite <- (clean_tx w Hc) in Hr.
  destruct (get_found w r Hc Hr) as (l & w1 & pk & Hg & Hc1 & Hh & Hpk & Hl & Htx & _).
  exists l, w1. split_and!; try done.
  apply (get_persistent w1 r pk l); try done. by rewrite Htx.
Qed.

Lemma get_user_by_email_same_object_witness :
  ∃ l w1, get_user_by_email (email alice) (new_session alice_world)
            = (inr (Some l), w1) ∧
          heap w1 !! l = Some alice ∧
          get_user_by_email (email alice) w1
          = (inr (Some l), set_trace (trace w1 ++ [DbExecute]) w1).
Proof.
  apply (get_user_by_email_same_object (new_session alice_world) alice).
  - apply clean_new_session, clean_alice_world.
  - apply alice_stored.
Defined.

(** X3: when the table holds an email twice and the session does not
    flush before queries, the lookup raises [MultipleResultsFound], and
    [confirmed_email], [update_avatar_url] and [set_new_password] pass it
    on after the query alone: no assignment, no commit. *)
Theorem duplicate_email_raises_MultipleResultsFound
    (w : World) (e : string) (r1 r2 : User) (rest : list User)
    (url : option string) (pw : string) :
  autoflush w = false →
  filter (λ r, email r = e) (tx w) = r1 :: r2 :: rest →
  let w' := set_trace (trace w ++ [DbExecute]) w in
  get_user_by_email e w = (inl MultipleResultsFound, w') ∧
  confirmed_email e w = (inl MultipleResultsFound, w') ∧
  update_avatar_url e url w = (inl MultipleResultsFound, w') ∧
  set_new_password e pw w = (inl MultipleResultsFound, w').
Proof.
  intros Haf Hrows w'.
  assert (Hg : get_user_by_email e w = (inl MultipleResultsFound, w')).
  { unfold get_user_by_email, db_execute_select_by_email, mbind, M_bind, log,
      autoflush_step, rows_by_email. cbn. rewrite Haf. cbn. by rewrite Hrows. }
  unfold confirmed_email, update_avatar_url, set_new_password.
  by rewrite !(bind_inl _ _ _ _ _ Hg).
Qed.

Lemma duplicate_email_raises_MultipleResultsFound_witness :
  let w' := set_trace (trace twin_world ++ [DbExecute]) twin_world in
  get_user_by_email "alice@example.com" twin_world = (inl MultipleResultsFound, w') ∧
  confirmed_email "alice@example.com" twin_world = (inl MultipleResultsFound, w') ∧
  update_avatar_url "alice@example.com" None twin_world
    = (inl MultipleResultsFound, w') ∧
  set_new_password "alice@example.com" "pbkdf2$changed" twin_world
    = (inl MultipleResultsFound, w').
Proof.
  apply (duplicate_email_raises_MultipleResultsFound twin_world "alice@example.com"
           alice alice_twin [] None "pbkdf2$changed").
  - reflexivity.
  - reflexivity.
Defined.

(** X4: on a clean session and for an email no stored user has,
    [confirmed_email], [update_avatar_url] and [set_new_password] raise
    [AttributeError] for the attribute they were about to assign, after
    the query alone: tables, objects and session are as before. *)
Theorem missing_user_changes_nothing
    (w : World) (e : string) (url : option string) (pw : string) :
  clean w → (∀ v, v ∈ committed w → email v ≠ e) →
  let w' := set_trace (trace w ++ [DbExecute]) w in
  confirmed_email e w = (inl (AttributeError "confirmed"), w') ∧
  update_avatar_url e url w = (inl (AttributeError "avatar"), w') ∧
  set_new_password e pw w = (inl (AttributeError "password"), w').
Proof.
  intros Hc Hno w'. rewrite <- (clean_tx w Hc) in Hno.
  pose proof (get_missing w e Hc Hno) as Hg.
  unfold confirmed_email, update_avatar_url, set_new_password.
  by rewrite !(bind_inr _ _ _ _ _ Hg).
Qed.

Lemma missing_user_changes_nothing_witness :
  let w' := set_trace (trace alice_world ++ [DbExecute]) alice_world in
  confirmed_email "bob@example.com" alice_world
    = (inl (AttributeError "confirmed"), w') ∧
  update_avatar_url "bob@example.com" None alice_world
    = (inl (AttributeError "avatar"), w') ∧
  set_new_password "bob@example.com" "pbkdf2$bob" alice_world
    = (inl (AttributeError "password"), w').
Proof.
  apply (missing_user_changes_nothing alice_world "bob@example.com" None "pbkdf2$bob").
  - apply clean_alice_world.
  - apply bob_not_stored.
Defined.

(** ** Invariant and row set *)

Lemma get_user_by_email_keeps_clean w e : clean w → clean (get_user_by_email e w).2.
Proof.
  intros Hc.
  destruct (decide (Exists (λ v, email v = e) (tx w))) as [Hex|Hno].
  - apply Exists_exists in Hex as (r & Hr & <-).
    destruct (get_found w r Hc Hr) as (l & w1 & pk & Hg & Hc1 & _).
    by rewrite Hg.
  - rewrite get_missing; [by apply clean_log|done|].
    intros v Hv He. apply Hno, Exists_exists. by exists v.
Qed.

Lemma same_keys_and_emails_refl w w' :
  committed w' = committed w → same_keys_and_emails w w'.
Proof. intros H. unfold same_keys_and_emails. by rewrite H. Qed.

(** X5: on a clean session the lookup and the three functions keyed by
    email leave a clean session, whether they return or raise, and the
    durable table keeps its rows' keys and emails: no row is added,
    removed or re-keyed, and emails stay unique. *)
Theorem email_keyed_operations_keep_invariant
    (w : World) (e : string) (url : option string) (pw : string) :
  clean w →
  clean (get_user_by_email e w).2 ∧
  (clean (confirmed_email e w).2 ∧
   same_keys_and_emails w (confirmed_email e w).2) ∧
  (clean (update_avatar_url e url w).2 ∧
   same_keys_and_emails w (update_avatar_url e url w).2) ∧
  (clean (set_new_password e pw w).2 ∧
   same_keys_and_emails w (set_new_password e pw w).2).
Proof.
  intros Hc. split; [by apply get_user_by_email_keeps_clean|].
  split; [|split].
  - destruct (by_email_outcome w e (set_confirmed true) "confirmed" Hc)
      as [(r & l & pk & w1 & w2 & _ & _ & _ & Hg & Hrun & Hc2 & _ & _ & _ & Hcm & _)
         |[_ Hg]]; [done|..];
      unfold confirmed_email; erewrite bind_inr by exact Hg.
    + rewrite Hrun. split; [done|]. by eapply same_keys_and_emails_upd; [|exact Hcm].
    + split; [by apply clean_log|by apply same_keys_and_emails_refl].
  - destruct (by_email_outcome w e (set_avatar url) "avatar" Hc)
      as [(r & l & pk & w1 & w2 & _ & _ & _ & Hg & Hrun & Hc2 & Hl & _ & _ & Hcm & _)
         |[_ Hg]]; [done|..];
      unfold update_avatar_url; erewrite bind_inr by exact Hg.
    + rewrite (bind_assoc (setattr _ _ _) (λ _, db_commit)).
      erewrite bind_inr by exact Hrun.
      erewrite bind_inr by (by apply (refresh_clean w2 pk l)).
      split; [by apply clean_log|]. by eapply same_keys_and_emails_upd; [|exact Hcm].
    + split; [by apply clean_log|by apply same_keys_and_emails_refl].
  - destruct (by_email_outcome w e (set_password pw) "password" Hc)
      as [(r & l & pk & w1 & w2 & _ & _ & _ & Hg & Hrun & Hc2 & _ & _ & _ & Hcm & _)
         |[_ Hg]]; [done|..];
      unfold set_new_password; erewrite bind_inr by exact Hg.
    + rewrite (bind_assoc (setattr _ _ _) (λ _, db_commit)).
      erewrite bind_inr by exact Hrun.
      split; [done|]. by eapply same_keys_and_emails_upd; [|exact Hcm].
    + split; [by apply clean_log|by apply same_keys_and_emails_refl].
Qed.

Lemma email_keyed_operations_keep_invariant_witness :
  clean (get_user_by_email "alice@example.com" alice_world).2 ∧
  (clean (confirmed_email "alice@example.com" alice_world).2 ∧
   same_keys_and_emails alice_world
     (confirmed_email "alice@example.com" alice_world).2) ∧
  (clean (update_avatar_url "alice@example.com" None alice_world).2 ∧
   same_keys_and_emails alice_world
     (update_avatar_url "alice@example.com" None alice_world).2) ∧
  (clean (set_new_password "alice@example.com" "pbkdf2$changed" alice_world).2 ∧
   same_keys_and_emails alice_world
     (set_new_password "alice@example.com" "pbkdf2$changed" alice_world).2).
Proof.
  apply (email_keyed_operations_keep_invariant alice_world "alice@example.com" None
           "pbkdf2$changed").
  apply clean_alice_world.
Defined.

(** Assignment and commit through a handle, whatever the address. *)
Lemma handle_outcome w l f a :
  clean w → keeps_identity f →
  ∃ w2, (setattr (Some l) a f;; db_commit) w = (inr (), w2) ∧
        clean w2 ∧ same_keys_and_emails w w2.
Proof.
  intros Hc Hf. destruct (persistent_key w l) as [pk|] eqn:Hkey.
  - apply persistent_key_Some in Hkey.
    destruct (clean_objs w Hc pk l Hkey) as (o & Ho & _).
    destruct (update_by_handle w l o f a Hc (persistent_of_key w l pk Hc Hkey) Ho Hf)
      as (pk' & w2 & Hrun & Hc2 & _ & _ & _ & _ & Hcm & _).
    exists w2. split_and!; try done. by eapply same_keys_and_emails_upd; [|exact Hcm].
  - destruct (commit_detached w l f a Hc) as [Hrun Hc2].
    { intros pk Hl. by rewrite (persistent_key_clean w pk l Hc Hl) in Hkey. }
    eexists. split_and!; [exact Hrun|done|by apply same_keys_and_emails_refl].
Qed.

(** X6: on a clean session [update_token] and [update_reset_token] return
    for every object address, leave a clean session, and keep the keys and
    emails of the durable table. *)
Theorem handle_operations_keep_invariant
    (w : World) (user : loc) (token reset_token : option string) :
  clean w →
  (∃ w', update_token user token w = (inr (), w') ∧
         clean w' ∧ same_keys_and_emails w w') ∧
  (∃ w', update_reset_token user reset_token w = (inr user, w') ∧
         clean w' ∧ same_keys_and_emails w w').
Proof.
  intros Hc. split.
  - by apply handle_outcome.
  - destruct (handle_outcome w user (set_password_reset_token reset_token)
                "password_reset_token" Hc) as (w2 & Hrun & Hc2 & Hsame); [done|].
    exists w2. split_and!; try done. unfold update_reset_token.
    rewrite (bind_assoc (setattr _ _ _) (λ _, db_commit)).
    by erewrite bind_inr by exact Hrun.
Qed.

Lemma handle_operations_keep_invariant_witness :
  (∃ w', update_token 1 (Some "abc") detached_world = (inr (), w') ∧
         clean w' ∧ same_keys_and_emails detached_world w') ∧
  (∃ w', update_reset_token 1 (Some "reset-1") detached_world = (inr 1, w') ∧
         clean w' ∧ same_keys_and_emails detached_world w').
Proof.
  apply (handle_operations_keep_invariant detached_world 1 (Some "abc")
           (Some "reset-1")).
  apply clean_detached_world.
Defined.

(** X7: an assignment through an object the session does not hold stays
    in memory: [update_token] and [update_reset_token] change the object
    and commit, but both tables are as before. *)
Theorem detached_object_not_persisted
    (w : World) (user : loc) (token reset_token : option string) :
  clean w → (∀ pk, identity_map w !! pk ≠ Some user) →
  (∃ w', update_token user token w = (inr (), w') ∧
         heap w' !! user = set_refresh_token token <$> heap w !! user ∧
         committed w' = committed w ∧ tx w' = tx w) ∧
  (∃ w', update_reset_token user reset_token w = (inr user, w') ∧
         heap w' !! user = set_password_reset_token reset_token <$> heap w !! user ∧
         committed w' = committed w ∧ tx w' = tx w).
Proof.
  intros Hc Hdet. split.
  - destruct (commit_detached w user (set_refresh_token token) "refresh_token" Hc Hdet)
      as [Hrun _].
    eexists. split; [exact Hrun|]. cbn. split_and!; try done.
    apply list_lookup_alter_eq.
  - destruct (commit_detached w user (set_password_reset_token reset_token)
                "password_reset_token" Hc Hdet) as [Hrun _].
    eexists. split.
    + unfold update_reset_token.
      rewrite (bind_assoc (setattr _ _ _) (λ _, db_commit)).
      by erewrite bind_inr by exact Hrun.
    + cbn. split_and!; try done. apply list_lookup_alter_eq.
Qed.

Lemma detached_object_not_persisted_witness :
  (∃ w', update_token 1 (Some "abc") detached_world = (inr (), w') ∧
         heap w' !! 1 = set_refresh_token (Some "abc") <$> heap detached_world !! 1 ∧
         committed w' = committed detached_world ∧ tx w' = tx detached_world) ∧
  (∃ w', update_reset_token 1 (Some "reset-1") detached_world = (inr 1, w') ∧
         heap w' !! 1
         = set_password_reset_token (Some "reset-1") <$> heap detached_world !! 1 ∧
         committed w' = committed detached_world ∧ tx w' = tx detached_world).
Proof.
  apply (detached_object_not_persisted detached_world 1 (Some "abc") (Some "reset-1")).
  - apply clean_detached_world.
  - intros pk Hl. cbn in Hl. apply lookup_singleton_Some in Hl as [_ Hl]. discriminate Hl.
Defined.

(** ** Creation *)

Lemma create_user_run g body w :
  clean w → (∀ v, v ∈ committed w → email v ≠ um_email body) →
  ∃ a t, create_user g body w
         = (inr (length (heap w)), set_trace t (created body a w)).
Proof.
  intros Hc Hfresh. destruct (g (um_email body)) as [err|url] eqn:Hg.
  - eexists _, _. by apply (create_user_avatar_err g body w err).
  - eexists _, _. by apply (create_user_avatar_ok g body w url).
Qed.

(** X8: on a clean session and for an email not stored yet, [create_user]
    returns whatever the avatar lookup did, leaves a clean session, and
    appends exactly one row, under a key no stored row has. *)
Theorem create_user_appends_one_row (g : Gravatar) (body : UserModel) (w : World) :
  clean w → (∀ v, v ∈ committed w → email v ≠ um_email body) →
  ∃ l w' u, create_user g body w = (inr l, w') ∧
            clean w' ∧
            heap w' !! l = Some u ∧
            committed w' = committed w ++ [u] ∧
            user_id u = Some (next_id w) ∧
            (∀ v, v ∈ committed w → user_id v ≠ user_id u) ∧
            next_id w' = S (next_id w).
Proof.
  intros Hc Hfresh.
  destruct (create_user_run g body w Hc Hfresh) as (a & t & Hrun).
  eexists _, _, (created_user body a w). split; [exact Hrun|].
  split_and!; try done.
  - by apply clean_set_trace, clean_created.
  - cbn. apply lookup_snoc_last.
  - intros v Hv Hid. rewrite <- (clean_tx w Hc) in Hv.
    destruct (clean_keys w Hc v Hv) as (pk & Hpk & Hlt).
    cbn in Hid. assert (pk = next_id w) by congruence. lia.
Qed.

Lemma create_user_appends_one_row_witness :
  ∃ l w' u, create_user gravatar_down bob_payload alice_world = (inr l, w') ∧
            clean w' ∧
            heap w' !! l = Some u ∧
            committed w' = committed alice_world ++ [u] ∧
            user_id u = Some (next_id alice_world) ∧
            (∀ v, v ∈ committed alice_world → user_id v ≠ user_id u) ∧
            next_id w' = S (next_id alice_world).
Proof.
  apply (create_user_appends_one_row gravatar_down bob_payload alice_world).
  - apply clean_alice_world.
  - apply bob_not_stored.
Defined.

(** X9: what [create_user] inserted is found again: a lookup of the
    payload's email in the same session returns the very object
    [create_user] returned, a new session reads the same values, and every
    user stored before is still found unchanged. *)
Theorem create_user_then_lookup (g : Gravatar) (body : UserModel) (w : World) :
  clean w → (∀ v, v ∈ committed w → email v ≠ um_email body) →
  ∃ l w' u, create_user g body w = (inr l, w') ∧
            heap w' !! l = Some u ∧
            get_user_by_email (um_email body) w'
            = (inr (Some l), set_trace (trace w' ++ [DbExecute]) w') ∧
            fresh_lookup (um_email body) (new_session w') = Some u ∧
            ∀ v, v ∈ committed w →
                 fresh_lookup (email v) w' = Some v ∧
                 fresh_lookup (email v) (new_session w') = Some v.
Proof.
  intros Hc Hfresh.
  destruct (create_user_run g body w Hc Hfresh) as (a & t & Hrun).
  pose proof (clean_set_trace _ t (clean_created body a w Hc Hfresh)) as Hc'.
  set (w' := set_trace t (created body a w)) in *.
  assert (Hin : created_user body a w ∈ committed w').
  { cbn. apply elem_of_app. right. by apply list_elem_of_singleton. }
  exists (length (heap w)), w', (created_user body a w). split; [exact Hrun|].
  split_and!.
  - cbn. apply lookup_snoc_last.
  - apply (get_persistent w' (created_user body a w) (next_id w)); try done.
    + by rewrite (clean_tx w' Hc').
    + cbn. by rewrite lookup_insert_eq.
  - by destruct (fresh_lookup_stored w' _ Hc' Hin).
  - intros v Hv. apply (fresh_lookup_stored w' v Hc').
    cbn. apply elem_of_app. by left.
Qed.

Lemma create_user_then_lookup_witness :
  ∃ l w' u, create_user gravatar_up bob_payload alice_world = (inr l, w') ∧
            heap w' !! l = Some u ∧
            get_user_by_email (um_email bob_payload) w'
            = (inr (Some l), set_trace (trace w' ++ [DbExecute]) w') ∧
            fresh_lookup (um_email bob_payload) (new_session w') = Some u ∧
            ∀ v, v ∈ committed alice_world →
                 fresh_lookup (email v) w' = Some v ∧
                 fresh_lookup (email v) (new_session w') = Some v.
Proof.
  apply (create_user_then_lookup gravatar_up bob_payload alice_world).
  - apply clean_alice_world.
  - apply bob_not_stored.
Defined.

(** ** Operations in sequence *)

(** X10: the last token wins.  Two [update_token] calls on an object the
    session holds leave the user as one call with the second token would:
    token then [None] is a user without refresh token. *)
Theorem update_token_last_write_wins
    (w : World) (user : loc) (r : User) (t1 t2 : option string) :
  clean w → persistent w user → heap w !! user = Some r →
  ∃ w1 w2, update_token user t1 w = (inr (), w1) ∧
           update_token user t2 w1 = (inr (), w2) ∧
           heap w2 !! user = Some (set_refresh_token t2 r) ∧
           fresh_lookup (email r) w2 = Some (set_refresh_token t2 r) ∧
           fresh_lookup (email r) (new_session w2) = Some (set_refresh_token t2 r).
Proof.
  intros Hc Hp Hh.
  destruct (update_by_handle w user r (set_refresh_token t1) "refresh_token" Hc Hp Hh)
    as (pk & w1 & Hrun1 & Hc1 & _ & _ & Hh1 & Hl1 & _); [done|].
  destruct (update_by_handle w1 user _ (set_refresh_token t2) "refresh_token" Hc1
              (persistent_of_key w1 user pk Hc1 Hl1) Hh1)
    as (pk2 & w2 & Hrun2 & Hc2 & _ & Hin2 & Hh2 & _); [done|].
  exists w1, w2.
  destruct (fresh_lookup_stored w2 _ Hc2 Hin2) as [Hsame Hnew].
  by split_and!.
Qed.

Lemma update_token_last_write_wins_witness :
  ∃ w1 w2, update_token 0 (Some "abc") alice_world = (inr (), w1) ∧
           update_token 0 None w1 = (inr (), w2) ∧
           heap w2 !! 0 = Some (set_refresh_token None alice) ∧
           fresh_lookup (email alice) w2 = Some (set_refresh_token None alice) ∧
           fresh_lookup (email alice) (new_session w2)
           = Some (set_refresh_token None alice).
Proof.
  apply (update_token_last_write_wins alice_world 0 alice (Some "abc") None).
  - apply clean_alice_world.
  - apply alice_persistent.
  - reflexivity.
Defined.

Lemma alter_fixed {A} (f : A → A) (l : list A) i x :
  l !! i = Some x → f x = x → alter f i l = l.
Proof.
  intros Hi Hx. apply list_eq. intros j. destruct (decide (j = i)) as [->|Hne].
  - by rewrite list_lookup_alter_eq, Hi; cbn; rewrite Hx.
  - by rewrite list_lookup_alter_ne.
Qed.

(** X11: [confirmed_email] is idempotent.  A second call for the same
    stored user returns and changes neither the durable table nor any
    object. *)
Theorem confirmed_email_idempotent (w : World) (r : User) :
  clean w → r ∈ committed w →
  ∃ w1 w2, confirmed_email (email r) w = (inr (), w1) ∧
           confirmed_email (email r) w1 = (inr (), w2) ∧
           committed w2 = committed w1 ∧
           heap w2 = heap w1.
Proof.
  intros Hc Hr.
  destruct (update_by_email w r (set_confirmed true) "confirmed" Hc Hr)
    as (l & pk & w0 & w1 & Hg & Hrun & Hc1 & Hin & Hh & Hl & Hcm & _); [done|].
  assert (Hpk : user_id r = Some pk).
  { destruct (clean_objs w1 Hc1 pk l Hl) as (o & Ho & Hid & _).
    assert (o = set_confirmed true r) as -> by congruence. done. }
  pose proof (clean_tx w1 Hc1) as Htx1.
  assert (Hg2 : get_user_by_email (email r) w1
                = (inr (Some l), set_trace (trace w1 ++ [DbExecute]) w1)).
  { apply (get_persistent w1 (set_confirmed true r) pk l); try done.
    by rewrite Htx1. }
  pose proof (commit_after_setattr (set_trace (trace w1 ++ [DbExecute]) w1) pk l
                (set_confirmed true) "confirmed" (clean_log w1 DbExecute Hc1) Hl
                (keeps_set_confirmed true)) as Hrun2.
  eexists w1, _. split_and!.
  - unfold confirmed_email. by erewrite bind_inr by exact Hg.
  - unfold confirmed_email. erewrite bind_inr by exact Hg2. exact Hrun2.
  - cbn. rewrite Htx1. apply fmap_id_on. intros v Hv.
    rewrite Hcm in Hv. apply list_elem_of_fmap in Hv as (v0 & -> & _).
    destruct (decide (user_id v0 = Some pk)) as [Hv0|Hv0].
    + by rewrite (upd_hit pk _ v0), upd_hit.
    + by rewrite (upd_miss pk _ v0), upd_miss.
  - cbn. by apply (alter_fixed _ _ _ (set_confirmed true r)).
Qed.

Lemma confirmed_email_idempotent_witness :
  ∃ w1 w2, confirmed_email (email alice) alice_world = (inr (), w1) ∧
           confirmed_email (email alice) w1 = (inr (), w2) ∧
           committed w2 = committed w1 ∧
           heap w2 = heap w1.
Proof.
  apply (confirmed_email_idempotent alice_world alice).
  - apply clean_alice_world.
  - apply alice_stored.
Defined.

(** X12: a password change does not clear the reset token.  After
    [update_reset_token] and then [set_new_password] for the same user, a
    lookup shows the new password and the reset token still in place. *)
Theorem reset_token_survives_password_change
    (w : World) (user : loc) (r : User) (reset_token : option string) (pw : string) :
  clean w → persistent w user → heap w !! user = Some r →
  ∃ w1 l w2 u, update_reset_token user reset_token w = (inr user, w1) ∧
               set_new_password (email r) pw w1 = (inr (Some l), w2) ∧
               fresh_lookup (email r) (new_session w2) = Some u ∧
               heap w2 !! l = Some u ∧
               password u = pw ∧
               password_reset_token u = reset_token.
Proof.
  intros Hc Hp Hh.
  destruct (update_by_handle w user r (set_password_reset_token reset_token)
              "password_reset_token" Hc Hp Hh)
    as (pk & w1 & Hrun1 & Hc1 & _ & Hin1 & _); [done|].
  destruct (update_by_email w1 _ (set_password pw) "password" Hc1 Hin1)
    as (l & pk2 & w1' & w2 & Hg & Hrun2 & Hc2 & Hin2 & Hh2 & _); [done|].
  exists w1, l, w2, (set_password pw (set_password_reset_token reset_token r)).
  destruct (fresh_lookup_stored w2 _ Hc2 Hin2) as [_ Hnew].
  split_and!; try done.
  - unfold update_reset_token.
    rewrite (bind_assoc (setattr _ _ _) (λ _, db_commit)).
    by erewrite bind_inr by exact Hrun1.
  - unfold set_new_password. erewrite bind_inr by exact Hg.
    rewrite (bind_assoc (setattr _ _ _) (λ _, db_commit)).
    by erewrite bind_inr by exact Hrun2.
Qed.

Lemma reset_token_survives_password_change_witness :
  ∃ w1 l w2 u, update_reset_token 0 (Some "reset-1") alice_world = (inr 0, w1) ∧
               set_new_password (email alice) "pbkdf2$changed" w1
               = (inr (Some l), w2) ∧
               fresh_lookup (email alice) (new_session w2) = Some u ∧
               heap w2 !! l = Some u ∧
               password u = "pbkdf2$changed" ∧
               password_reset_token u = Some "reset-1".
Proof.
  apply (reset_token_survives_password_change alice_world 0 alice (Some "reset-1")
           "pbkdf2$changed").
  - apply clean_alice_world.
  - apply alice_persistent.
  - reflexivity.
Defined.

(** X13: [update_avatar_url] works on the object the session already
    handed out.  When the caller holds the user at [user], the call
    returns that same address, no new object is loaded, and the held
    object shows the new avatar. *)
Theorem update_avatar_url_updates_held_object
    (w : World) (user : loc) (r : User) (url : option string) :
  clean w → persistent w user → heap w !! user = Some r →
  ∃ w', update_avatar_url (email r) url w = (inr (Some user), w') ∧
        heap w' !! user = Some (set_avatar url r) ∧
        length (heap w') = length (heap w).
Proof.
  intros Hc (o & pk & Ho & Hpk & Hl) Hh.
  assert (o = r) as -> by congruence.
  destruct (clean_objs w Hc pk user Hl) as (o' & Ho' & _ & Hin).
  assert (o' = r) as -> by congruence.
  pose proof (get_persistent w r pk user Hc Hin Hpk Hl) as Hg.
  pose proof (clean_log w DbExecute Hc) as Hc0.
  pose proof (commit_after_setattr _ pk user (set_avatar url) "avatar" Hc0 Hl
                (keeps_set_avatar url)) as Hrun.
  pose proof (clean_updated _ pk user (set_avatar url) Hc0 Hl (keeps_set_avatar url))
    as Hc2.
  eexists. split_and!.
  - unfold update_avatar_url. erewrite bind_inr by exact Hg.
    rewrite (bind_assoc (setattr _ _ _) (λ _, db_commit)).
    erewrite bind_inr by exact Hrun.
    by erewrite bind_inr by (by apply (refresh_clean _ pk user)).
  - cbn. by rewrite list_lookup_alter_eq, Hh.
  - cbn. apply length_alter.
Qed.

Lemma update_avatar_url_updates_held_object_witness :
  ∃ w', update_avatar_url (email alice) (Some "https://img.example.com/a.png")
          alice_world = (inr (Some 0), w') ∧
        heap w' !! 0 = Some (set_avatar (Some "https://img.example.com/a.png") alice) ∧
        length (heap w') = length (heap alice_world).
Proof.
  apply (update_avatar_url_updates_held_object alice_world 0 alice
           (Some "https://img.example.com/a.png")).
  - apply clean_alice_world.
  - apply alice_persistent.
  - reflexivity.
Defined.

(** X14: [update_token] and [update_reset_token] never query: on every
    session state, whether the commit succeeds or raises, the only session
    call they make is the one commit. *)
Theorem handle_operations_issue_commit_only
    (w : World) (user : loc) (token reset_token : option string) :
  issued (update_token user token) w = [DbCommit] ∧
  issued (update_reset_token user reset_token) w = [DbCommit].
Proof.
  split; apply issued_emits.
  - apply emits_update_token.
  - apply emits_update_reset_token.
Qed.
